(** * Thrust mapper of the Riptide vehicle: a Rocq model of
      [riptide_navigation/src/thrust_mapper.cpp]

    The node allocates a commanded six-axis body acceleration over ten
    thrusters.  It owns six residual functors, a table of thruster positions
    filled once from the transform service, a Ceres problem (six residual
    blocks, ten bounded one-dimensional parameter blocks) and a callback that
    runs one solve per acceleration message and publishes the solved forces.

    Numbers.  The C++ [double] is read as an exact rational ([Q]): the
    statements below are the algebraic ones, rounding is not modelled.
    Equality of computed numbers is [==] ([Qeq]); data that is only copied is
    compared with [=].

    Collaborators.  The transform listener, the clock and [ceres::Solve] are
    not part of the node.  The listener is a lookup function, the clock value
    is an argument of the callback, and the solver is a function handed to the
    callback; what a theorem needs from the solver is a named contract. *)

From Stdlib Require Import QArith Qabs Qfield Lqa List String Bool NArith.
Import ListNotations.
Local Open Scope Q_scope.

(* ================================================================== *)
(** * Scalars, constants and global state                             *)
(* ================================================================== *)

Definition double : Type := Q.

(** The functors are templates over the scalar [T]: Ceres instantiates them
    at [double] to evaluate residuals and at a jet type to differentiate
    them.  A scalar offers the conversion [T(d)] and the four operations the
    functors use. *)
Class Scalar (T : Type) : Type := {
  s_cast : double -> T;
  s_add : T -> T -> T;
  s_sub : T -> T -> T;
  s_mul : T -> T -> T;
  s_div : T -> T -> T
}.

Declare Scope scalar_scope.
Delimit Scope scalar_scope with S.
Infix "+" := s_add : scalar_scope.
Infix "-" := s_sub : scalar_scope.
Infix "*" := s_mul : scalar_scope.
Infix "/" := s_div : scalar_scope.

#[export] Instance Scalar_double : Scalar double := {
  s_cast := fun d => d;
  s_add := Qplus;
  s_sub := Qminus;
  s_mul := Qmult;
  s_div := Qdiv
}.

(** A jet with one infinitesimal part: a value and its derivative along one
    chosen direction (the shape of [ceres::Jet<double, 1>]). *)
Record Jet : Type := mkJet { jet_a : double; jet_v : double }.

#[export] Instance Scalar_Jet : Scalar Jet := {
  s_cast := fun d => mkJet d 0;
  s_add := fun f g => mkJet (jet_a f + jet_a g) (jet_v f + jet_v g);
  s_sub := fun f g => mkJet (jet_a f - jet_a g) (jet_v f - jet_v g);
  s_mul := fun f g => mkJet (jet_a f * jet_a g)
                            (jet_a f * jet_v g + jet_v f * jet_a g);
  s_div := fun f g => mkJet (jet_a f / jet_a g)
                            ((jet_v f - (jet_a f / jet_a g) * jet_v g) / jet_a g)
}.

(** Thrust limits (N), vehicle mass (kg), moments of inertia (kg*m^2).  They
    are globals of the program that nothing ever assigns. *)
Definition MIN_THRUST : double := -18.0.
Definition MAX_THRUST : double := 18.0.
Definition MASS : double := 48.8428.
Definition Ix : double := 0.55649783.
Definition Iy : double := 1.89075467.
Definition Iz : double := 1.96057706.

Record vector : Type := mk_vector { x : double; y : double; z : double }.

Definition makeVector (X Y Z : double) : vector :=
  {| x := X; y := Y; z := Z |}.

(** The globals that are written while the node runs: the six acceleration
    targets (written by every callback) and the ten thruster positions
    (written by the constructor). *)
Record Globals : Type := mk_Globals {
  cmdSurge : double;
  cmdSway : double;
  cmdHeave : double;
  cmdRoll : double;
  cmdPitch : double;
  cmdYaw : double;
  pos_surge_stbd_hi : vector;
  pos_surge_port_hi : vector;
  pos_surge_port_lo : vector;
  pos_surge_stbd_lo : vector;
  pos_sway_fwd : vector;
  pos_sway_aft : vector;
  pos_heave_port_aft : vector;
  pos_heave_stbd_aft : vector;
  pos_heave_stbd_fwd : vector;
  pos_heave_port_fwd : vector
}.

(** Static initialisation: every global of the second group starts at zero. *)
Definition vector_zero : vector := makeVector 0 0 0.

Definition globals_at_load : Globals :=
  {| cmdSurge := 0; cmdSway := 0; cmdHeave := 0;
     cmdRoll := 0; cmdPitch := 0; cmdYaw := 0;
     pos_surge_stbd_hi := vector_zero; pos_surge_port_hi := vector_zero;
     pos_surge_port_lo := vector_zero; pos_surge_stbd_lo := vector_zero;
     pos_sway_fwd := vector_zero; pos_sway_aft := vector_zero;
     pos_heave_port_aft := vector_zero; pos_heave_stbd_aft := vector_zero;
     pos_heave_stbd_fwd := vector_zero; pos_heave_port_fwd := vector_zero |}.

(* ================================================================== *)
(** * The six residual functors                                       *)
(* ================================================================== *)

Section Equations.
Context {T : Type} `{Scalar T}.
Variable g : Globals.
Local Open Scope scalar_scope.
Local Notation "'T_' d" := (s_cast d) (at level 9, d at level 9).

(** Every [operator()] stores one residual and returns [true]; the model
    returns the residual. *)

Definition surge (surge_stbd_hi surge_port_hi surge_port_lo surge_stbd_lo : T) : T :=
  (surge_stbd_hi + surge_port_hi + surge_port_lo + surge_stbd_lo) / T_ MASS
  - T_ (cmdSurge g).

Definition sway (sway_fwd sway_aft : T) : T :=
  (sway_fwd + sway_aft) / T_ MASS - T_ (cmdSway g).

Definition heave (heave_port_aft heave_stbd_aft heave_stbd_fwd heave_port_fwd : T) : T :=
  (heave_port_aft + heave_stbd_aft + heave_stbd_fwd + heave_port_fwd) / T_ MASS
  - T_ (cmdHeave g).

Definition roll (heave_port_aft heave_stbd_aft heave_stbd_fwd heave_port_fwd
                 sway_fwd sway_aft : T) : T :=
  (heave_port_aft * T_ (y (pos_heave_port_aft g))
   + heave_stbd_aft * T_ (y (pos_heave_stbd_aft g))
   + heave_stbd_fwd * T_ (y (pos_heave_stbd_fwd g))
   + heave_port_fwd * T_ (y (pos_heave_port_fwd g))
   + sway_fwd * T_ (z (pos_sway_fwd g))
   + sway_aft * T_ (z (pos_sway_aft g))) / T_ Ix
  - T_ (cmdRoll g).

Definition pitch (surge_stbd_hi surge_port_hi surge_port_lo surge_stbd_lo
                  heave_port_aft heave_stbd_aft heave_stbd_fwd heave_port_fwd : T) : T :=
  (surge_stbd_hi * T_ (z (pos_surge_stbd_hi g))
   + surge_port_hi * T_ (z (pos_surge_port_hi g))
   + surge_port_lo * T_ (z (pos_surge_port_lo g))
   + surge_stbd_lo * T_ (z (pos_surge_stbd_lo g))
   + heave_port_aft * T_ (x (pos_heave_port_aft g))
   + heave_stbd_aft * T_ (x (pos_heave_stbd_aft g))
   + heave_stbd_fwd * T_ (x (pos_heave_stbd_fwd g))
   + heave_port_fwd * T_ (x (pos_heave_port_fwd g))) / T_ Iy
  - T_ (cmdPitch g).

Definition yaw (surge_stbd_hi surge_port_hi surge_port_lo surge_stbd_lo
                sway_fwd sway_aft : T) : T :=
  (surge_stbd_hi * T_ (y (pos_surge_stbd_hi g))
   + surge_port_hi * T_ (y (pos_surge_port_hi g))
   + surge_port_lo * T_ (y (pos_surge_port_lo g))
   + surge_stbd_lo * T_ (y (pos_surge_stbd_lo g))
   + sway_fwd * T_ (x (pos_sway_fwd g))
   + sway_aft * T_ (x (pos_sway_aft g))) / T_ Iz
  - T_ (cmdYaw g).
End Equations.

Arguments surge {T _} g _ _ _ _.
Arguments sway {T _} g _ _.
Arguments heave {T _} g _ _ _ _.
Arguments roll {T _} g _ _ _ _ _ _.
Arguments pitch {T _} g _ _ _ _ _ _ _ _.
Arguments yaw {T _} g _ _ _ _ _ _.

(* ================================================================== *)
(** * Messages and the solver's member variables                      *)
(* ================================================================== *)

(** [riptide_msgs::Thrust]: ten named forces.  The ten [double] members of
    [Solver] (the unknowns of the problem) have the same names and are kept
    in a record of the same type. *)
Record Thrust : Type := mk_Thrust {
  surge_stbd_hi : double;
  surge_port_hi : double;
  surge_port_lo : double;
  surge_stbd_lo : double;
  sway_fwd : double;
  sway_aft : double;
  heave_port_aft : double;
  heave_stbd_aft : double;
  heave_stbd_fwd : double;
  heave_port_fwd : double
}.

Definition ros_Time : Type := N.

(** [riptide_msgs::ThrustStamped], with the one header field the node sets. *)
Record ThrustStamped : Type := mk_ThrustStamped {
  header_stamp : ros_Time;
  force : Thrust
}.

Module geometry_msgs.
Record Vector3 : Type := mk_Vector3 { x : double; y : double; z : double }.
Record Accel : Type := mk_Accel { linear : Vector3; angular : Vector3 }.
End geometry_msgs.

(** A parameter block is handed to Ceres as the address of one of the ten
    members; the ten addresses are the ten thrusters. *)
Inductive Thruster : Type :=
| SurgeStbdHi | SurgePortHi | SurgePortLo | SurgeStbdLo
| SwayFwd | SwayAft
| HeavePortAft | HeaveStbdAft | HeaveStbdFwd | HeavePortFwd.

Definition Thruster_eq_dec (a b : Thruster) : {a = b} + {a <> b}.
Proof. decide equality. Defined.

Definition all_thrusters : list Thruster :=
  [SurgeStbdHi; SurgePortHi; SurgePortLo; SurgeStbdLo;
   SwayFwd; SwayAft;
   HeavePortAft; HeaveStbdAft; HeaveStbdFwd; HeavePortFwd].

(** Reading a member through its address. *)
Definition deref (u : Thrust) (p : Thruster) : double :=
  match p with
  | SurgeStbdHi => surge_stbd_hi u
  | SurgePortHi => surge_port_hi u
  | SurgePortLo => surge_port_lo u
  | SurgeStbdLo => surge_stbd_lo u
  | SwayFwd => sway_fwd u
  | SwayAft => sway_aft u
  | HeavePortAft => heave_port_aft u
  | HeaveStbdAft => heave_stbd_aft u
  | HeaveStbdFwd => heave_stbd_fwd u
  | HeavePortFwd => heave_port_fwd u
  end.

(** Writing all ten members from a valuation of the addresses. *)
Definition store (v : Thruster -> double) : Thrust :=
  {| surge_stbd_hi := v SurgeStbdHi; surge_port_hi := v SurgePortHi;
     surge_port_lo := v SurgePortLo; surge_stbd_lo := v SurgeStbdLo;
     sway_fwd := v SwayFwd; sway_aft := v SwayAft;
     heave_port_aft := v HeavePortAft; heave_stbd_aft := v HeaveStbdAft;
     heave_stbd_fwd := v HeaveStbdFwd; heave_port_fwd := v HeavePortFwd |}.

(** The entry of the position table that belongs to a thruster. *)
Definition position (g : Globals) (p : Thruster) : vector :=
  match p with
  | SurgeStbdHi => pos_surge_stbd_hi g
  | SurgePortHi => pos_surge_port_hi g
  | SurgePortLo => pos_surge_port_lo g
  | SurgeStbdLo => pos_surge_stbd_lo g
  | SwayFwd => pos_sway_fwd g
  | SwayAft => pos_sway_aft g
  | HeavePortAft => pos_heave_port_aft g
  | HeaveStbdAft => pos_heave_stbd_aft g
  | HeaveStbdFwd => pos_heave_stbd_fwd g
  | HeavePortFwd => pos_heave_port_fwd g
  end.

(* ================================================================== *)
(** * The transform listener                                          *)
(* ================================================================== *)

(** A stamped transform, reduced to the origin the node reads. *)
Record StampedTransform : Type := mk_StampedTransform { getOrigin : vector }.

(** The listener answers a (target frame, source frame) query at the latest
    time, or has no answer. *)
Definition TransformListener : Type := string -> string -> option StampedTransform.

(** [waitForTransform] blocks up to the timeout and reports whether the
    transform became available. *)
Definition waitForTransform (listener : TransformListener)
    (target source : string) (timeout : double) : bool :=
  match listener target source with Some _ => true | None => false end.

(** [lookupTransform] throws when there is no transform; nothing catches the
    exception, so [None] ends the process. *)
Definition lookupTransform (listener : TransformListener)
    (target source : string) : option StampedTransform :=
  listener target source.

(** Sequencing of calls that may throw. *)
Definition bind {A B : Type} (m : option A) (k : A -> option B) : option B :=
  match m with Some a => k a | None => None end.

Notation "x <- m ;; k" := (bind m (fun x => k))
  (at level 61, m at next level, right associativity).

(* ================================================================== *)
(** * The Ceres problem                                               *)
(* ================================================================== *)

(** A residual block as the solver sees it: a templated cost functor wired to
    its parameter blocks, evaluated on a valuation of the addresses. *)
Definition Residual : Type := forall T : Type, Scalar T -> (Thruster -> T) -> T.

(** The functors read the globals when they are evaluated, so the blocks
    stored in the problem still depend on the globals. *)
Definition ResidualBlock : Type := Globals -> Residual.

Record Problem : Type := mk_Problem {
  residual_blocks : list ResidualBlock;
  lower_bounds : Thruster -> option double;
  upper_bounds : Thruster -> option double
}.

(** A default-constructed problem: no blocks, no bounds. *)
Definition Problem_new : Problem :=
  {| residual_blocks := [];
     lower_bounds := fun _ => None;
     upper_bounds := fun _ => None |}.

Definition push_block (b : ResidualBlock) (p : Problem) : Problem :=
  {| residual_blocks := residual_blocks p ++ [b];
     lower_bounds := lower_bounds p;
     upper_bounds := upper_bounds p |}.

(** [AddResidualBlock(new AutoDiffCostFunction<F, 1, 1, ..., 1>(new F), NULL,
    x0, ..., xk)]: the k-th argument of the functor is the block at [xk]. *)
Definition AddResidualBlock2
    (F : forall T, Scalar T -> Globals -> T -> T -> T)
    (x0 x1 : Thruster) : Problem -> Problem :=
  push_block (fun g T S v => F T S g (v x0) (v x1)).

Definition AddResidualBlock4
    (F : forall T, Scalar T -> Globals -> T -> T -> T -> T -> T)
    (x0 x1 x2 x3 : Thruster) : Problem -> Problem :=
  push_block (fun g T S v => F T S g (v x0) (v x1) (v x2) (v x3)).

Definition AddResidualBlock6
    (F : forall T, Scalar T -> Globals -> T -> T -> T -> T -> T -> T -> T)
    (x0 x1 x2 x3 x4 x5 : Thruster) : Problem -> Problem :=
  push_block (fun g T S v => F T S g (v x0) (v x1) (v x2) (v x3) (v x4) (v x5)).

Definition AddResidualBlock8
    (F : forall T, Scalar T -> Globals ->
         T -> T -> T -> T -> T -> T -> T -> T -> T)
    (x0 x1 x2 x3 x4 x5 x6 x7 : Thruster) : Problem -> Problem :=
  push_block (fun g T S v =>
    F T S g (v x0) (v x1) (v x2) (v x3) (v x4) (v x5) (v x6) (v x7)).

(** Every parameter block has size one, so the only index is 0; Ceres aborts
    on any other, which the node never passes. *)
Definition SetParameterLowerBound (values : Thruster) (index : nat)
    (lower_bound : double) (p : Problem) : Problem :=
  match index with
  | O => {| residual_blocks := residual_blocks p;
            lower_bounds := fun q => if Thruster_eq_dec q values
                                     then Some lower_bound else lower_bounds p q;
            upper_bounds := upper_bounds p |}
  | S _ => p
  end.

Definition SetParameterUpperBound (values : Thruster) (index : nat)
    (upper_bound : double) (p : Problem) : Problem :=
  match index with
  | O => {| residual_blocks := residual_blocks p;
            lower_bounds := lower_bounds p;
            upper_bounds := fun q => if Thruster_eq_dec q values
                                     then Some upper_bound else upper_bounds p q |}
  | S _ => p
  end.

Inductive LinearSolverType : Type :=
| DENSE_NORMAL_CHOLESKY | DENSE_QR | SPARSE_NORMAL_CHOLESKY
| DENSE_SCHUR | SPARSE_SCHUR | ITERATIVE_SCHUR | CGNR.

Record Options : Type := mk_Options {
  max_num_iterations : nat;
  linear_solver_type : LinearSolverType;
  minimizer_progress_to_stdout : bool
}.

(** Ceres' defaults for the three options. *)
Definition Options_new : Options :=
  {| max_num_iterations := 50;
     linear_solver_type := SPARSE_NORMAL_CHOLESKY;
     minimizer_progress_to_stdout := false |}.

Inductive TerminationType : Type :=
| CONVERGENCE | NO_CONVERGENCE | FAILURE | USER_SUCCESS | USER_FAILURE.

Record Summary : Type := mk_Summary {
  termination_type : TerminationType;
  num_iterations : nat
}.

Definition Summary_new : Summary :=
  {| termination_type := FAILURE; num_iterations := 0 |}.

(** What [ceres::Solve] receives in one call: the residual blocks with the
    globals as they are during the call, and the bounds. *)
Record Program : Type := mk_Program {
  blocks : list Residual;
  lower : Thruster -> option double;
  upper : Thruster -> option double
}.

Definition program_of (g : Globals) (p : Problem) : Program :=
  {| blocks := map (fun b => b g) (residual_blocks p);
     lower := lower_bounds p;
     upper := upper_bounds p |}.

(** [ceres::Solve(options, &problem, &summary)]: from the options, the
    program and the current values of the parameter blocks to their final
    values and a summary.  A function: the solver is taken to be
    deterministic. *)
Definition SolveFn : Type := Options -> Program -> Thrust -> Thrust * Summary.

(** Evaluation of a residual at [double] on the current member values. *)
Definition residual_at (r : Residual) (u : Thrust) : double :=
  r double Scalar_double (deref u).

Definition residuals_at (P : Program) (u : Thrust) : list double :=
  map (fun r => residual_at r u) (blocks P).

(* ================================================================== *)
(** * The node: state, constructor, callback, loop                    *)
(* ================================================================== *)

(** The state of the process: the written globals, the members of [Solver]
    that matter, and the messages sent on [command/thrust] so far (oldest
    first). *)
Record State : Type := mk_State {
  globals : Globals;
  thrust : ThrustStamped;
  problem : Problem;
  options : Options;
  summary : Summary;
  unknowns : Thrust;
  published : list ThrustStamped
}.

Definition base_link : string := "/base_link".

(** The problem as the constructor assembles it, call by call. *)
Definition build_problem : Problem :=
  let p := Problem_new in
  (* Linear *)
  let p := AddResidualBlock4 (@surge)
             SurgeStbdHi SurgePortHi SurgePortLo SurgeStbdLo p in
  let p := AddResidualBlock2 (@sway) SwayFwd SwayAft p in
  let p := AddResidualBlock4 (@heave)
             HeavePortAft HeaveStbdAft HeaveStbdFwd HeavePortFwd p in
  (* Angular *)
  let p := AddResidualBlock6 (@roll)
             HeavePortAft HeaveStbdAft HeaveStbdFwd HeavePortFwd
             SwayFwd SwayAft p in
  let p := AddResidualBlock8 (@pitch)
             SurgeStbdHi SurgePortHi SurgePortLo SurgeStbdLo
             HeavePortAft HeaveStbdAft HeaveStbdFwd HeavePortFwd p in
  let p := AddResidualBlock6 (@yaw)
             SurgeStbdHi SurgePortHi SurgePortLo SurgeStbdLo
             SwayFwd SwayAft p in
  (* Surge thrusters *)
  let p := SetParameterLowerBound SurgePortHi 0 MIN_THRUST p in
  let p := SetParameterUpperBound SurgePortHi 0 MAX_THRUST p in
  let p := SetParameterLowerBound SurgeStbdHi 0 MIN_THRUST p in
  let p := SetParameterUpperBound SurgeStbdHi 0 MAX_THRUST p in
  let p := SetParameterLowerBound SurgePortLo 0 MIN_THRUST p in
  let p := SetParameterUpperBound SurgePortLo 0 MAX_THRUST p in
  let p := SetParameterLowerBound SurgeStbdLo 0 MIN_THRUST p in
  let p := SetParameterUpperBound SurgeStbdLo 0 MAX_THRUST p in
  (* Sway thrusters *)
  let p := SetParameterLowerBound SwayFwd 0 MIN_THRUST p in
  let p := SetParameterUpperBound SwayFwd 0 MAX_THRUST p in
  let p := SetParameterLowerBound SwayAft 0 MIN_THRUST p in
  let p := SetParameterUpperBound SwayAft 0 MAX_THRUST p in
  (* Heave thrusters *)
  let p := SetParameterLowerBound HeavePortFwd 0 MIN_THRUST p in
  let p := SetParameterUpperBound HeavePortFwd 0 MAX_THRUST p in
  let p := SetParameterLowerBound HeaveStbdFwd 0 MIN_THRUST p in
  let p := SetParameterUpperBound HeaveStbdFwd 0 MAX_THRUST p in
  let p := SetParameterLowerBound HeavePortAft 0 MIN_THRUST p in
  let p := SetParameterUpperBound HeavePortAft 0 MAX_THRUST p in
  let p := SetParameterLowerBound HeaveStbdAft 0 MIN_THRUST p in
  let p := SetParameterUpperBound HeaveStbdAft 0 MAX_THRUST p in
  p.

Definition origin_vector (t : StampedTransform) : vector :=
  makeVector (x (getOrigin t)) (y (getOrigin t)) (z (getOrigin t)).

(** [Solver::Solver].  [g0] holds the globals before the call, [uninit] the
    indeterminate values of the ten members and [thrust0] the
    default-constructed message member.  The results of [waitForTransform]
    are dropped, as in the source. *)
Definition Solver_new (listener : TransformListener)
    (g0 : Globals) (uninit : Thrust) (thrust0 : ThrustStamped) : option State :=
  let _ := waitForTransform listener base_link "/surge_port_hi_thruster" 10.0 in
  surge_2 <- lookupTransform listener base_link "/surge_port_hi_thruster" ;;
  let _ := waitForTransform listener base_link "/surge_stbd_hi_thruster" 10.0 in
  surge_1 <- lookupTransform listener base_link "/surge_stbd_hi_thruster" ;;
  let _ := waitForTransform listener base_link "/surge_port_lo_thruster" 10.0 in
  surge_4 <- lookupTransform listener base_link "/surge_port_lo_thruster" ;;
  let _ := waitForTransform listener base_link "/surge_stbd_lo_thruster" 10.0 in
  surge_3 <- lookupTransform listener base_link "/surge_stbd_lo_thruster" ;;
  let _ := waitForTransform listener base_link "/sway_fwd_thruster" 10.0 in
  sway_1 <- lookupTransform listener base_link "/sway_fwd_thruster" ;;
  let _ := waitForTransform listener base_link "/sway_aft_thruster" 10.0 in
  sway_2 <- lookupTransform listener base_link "/sway_aft_thruster" ;;
  let _ := waitForTransform listener base_link "/heave_port_fwd_thruster" 10.0 in
  heave_2 <- lookupTransform listener base_link "/heave_port_fwd_thruster" ;;
  let _ := waitForTransform listener base_link "/heave_stbd_fwd_thruster" 10.0 in
  heave_1 <- lookupTransform listener base_link "/heave_stbd_fwd_thruster" ;;
  let _ := waitForTransform listener base_link "/heave_port_aft_thruster" 10.0 in
  heave_4 <- lookupTransform listener base_link "/heave_port_aft_thruster" ;;
  let _ := waitForTransform listener base_link "/heave_stbd_aft_thruster" 10.0 in
  heave_3 <- lookupTransform listener base_link "/heave_stbd_aft_thruster" ;;
  Some
    {| globals :=
         {| cmdSurge := cmdSurge g0; cmdSway := cmdSway g0;
            cmdHeave := cmdHeave g0; cmdRoll := cmdRoll g0;
            cmdPitch := cmdPitch g0; cmdYaw := cmdYaw g0;
            pos_surge_port_hi := origin_vector surge_2;
            pos_surge_stbd_hi := origin_vector surge_1;
            pos_surge_port_lo := origin_vector surge_3;
            pos_surge_stbd_lo := origin_vector surge_4;
            pos_sway_fwd := origin_vector sway_1;
            pos_sway_aft := origin_vector sway_2;
            pos_heave_port_fwd := origin_vector heave_4;
            pos_heave_stbd_fwd := origin_vector heave_3;
            pos_heave_port_aft := origin_vector heave_1;
            pos_heave_stbd_aft := origin_vector heave_2 |};
       thrust := thrust0;
       problem := build_problem;
       options :=
         {| max_num_iterations := 100;
            linear_solver_type := DENSE_QR;
            minimizer_progress_to_stdout :=
              minimizer_progress_to_stdout Options_new |};
       summary := Summary_new;
       unknowns := uninit;
       published := [] |}.

(** The all-zero initial guess written at the start of every callback. *)
Definition zero_thrust : Thrust :=
  {| surge_stbd_hi := 0.0; surge_port_hi := 0.0;
     surge_port_lo := 0.0; surge_stbd_lo := 0.0;
     sway_fwd := 0.0; sway_aft := 0.0;
     heave_port_aft := 0.0; heave_stbd_aft := 0.0;
     heave_stbd_fwd := 0.0; heave_port_fwd := 0.0 |}.

(** The six assignments to the targets. *)
Definition set_targets (a : geometry_msgs.Accel) (g : Globals) : Globals :=
  {| cmdSurge := geometry_msgs.x (geometry_msgs.linear a);
     cmdSway := geometry_msgs.y (geometry_msgs.linear a);
     cmdHeave := geometry_msgs.z (geometry_msgs.linear a);
     cmdRoll := geometry_msgs.x (geometry_msgs.angular a);
     cmdPitch := geometry_msgs.y (geometry_msgs.angular a);
     cmdYaw := geometry_msgs.z (geometry_msgs.angular a);
     pos_surge_stbd_hi := pos_surge_stbd_hi g;
     pos_surge_port_hi := pos_surge_port_hi g;
     pos_surge_port_lo := pos_surge_port_lo g;
     pos_surge_stbd_lo := pos_surge_stbd_lo g;
     pos_sway_fwd := pos_sway_fwd g;
     pos_sway_aft := pos_sway_aft g;
     pos_heave_port_aft := pos_heave_port_aft g;
     pos_heave_stbd_aft := pos_heave_stbd_aft g;
     pos_heave_stbd_fwd := pos_heave_stbd_fwd g;
     pos_heave_port_fwd := pos_heave_port_fwd g |}.

Section Node.
Variable Solve : SolveFn.

(** [Solver::callback], with the value [ros::Time::now()] returns as the
    argument [now]. *)
Definition callback (a : geometry_msgs.Accel) (now : ros_Time) (s : State) : State :=
  let g := set_targets a (globals s) in
  let u0 := zero_thrust in
  let r := Solve (options s) (program_of g (problem s)) u0 in
  let u := fst r in
  let msg :=
    {| header_stamp := now;
       force :=
         {| surge_stbd_hi := surge_stbd_hi u;
            surge_port_hi := surge_port_hi u;
            surge_port_lo := surge_port_lo u;
            surge_stbd_lo := surge_stbd_lo u;
            sway_fwd := sway_fwd u;
            sway_aft := sway_aft u;
            heave_port_aft := heave_port_aft u;
            heave_stbd_aft := heave_stbd_aft u;
            heave_stbd_fwd := heave_stbd_fwd u;
            heave_port_fwd := heave_port_fwd u |} |} in
  {| globals := g;
     thrust := msg;
     problem := problem s;
     options := options s;
     summary := snd r;
     unknowns := u;
     published := published s ++ [msg] |}.

(** [Solver::loop]: [ros::spin] runs the callback once for every message
    the transport delivers, one after the other. *)
Definition loop (inbox : list (geometry_msgs.Accel * ros_Time)) (s : State) : State :=
  fold_left (fun s m => callback (fst m) (snd m) s) inbox s.
End Node.

(** [main]: construct the solver, then spin.  The listener is created by
    [main] and filled by the transport; the constructor either completes or
    the process dies in it. *)
Definition thrust_at_construction : ThrustStamped :=
  {| header_stamp := 0%N; force := zero_thrust |}.

Definition main (Solve : SolveFn) (listener : TransformListener) (uninit : Thrust)
    (inbox : list (geometry_msgs.Accel * ros_Time)) : option State :=
  solver <- Solver_new listener globals_at_load uninit thrust_at_construction ;;
  Some (loop Solve inbox solver).

(* ================================================================== *)
(** * Reference definitions, in the words of the specification        *)
(* ================================================================== *)

(** The axis role of a thruster: four surge, two sway, four heave. *)
Inductive Role : Type := Surge | Sway | Heave.

Definition role (p : Thruster) : Role :=
  match p with
  | SurgeStbdHi | SurgePortHi | SurgePortLo | SurgeStbdLo => Surge
  | SwayFwd | SwayAft => Sway
  | HeavePortAft | HeaveStbdAft | HeaveStbdFwd | HeavePortFwd => Heave
  end.

Definition Role_eqb (a b : Role) : bool :=
  match a, b with
  | Surge, Surge | Sway, Sway | Heave, Heave => true
  | _, _ => false
  end.

Definition thrusters_of (r : Role) : list Thruster :=
  filter (fun p => Role_eqb (role p) r) all_thrusters.

Definition Qsum (l : list Q) : Q := fold_right Qplus 0 l.

(** Sum of the forces of the thrusters of one role. *)
Definition force_sum (u : Thrust) (r : Role) : Q :=
  Qsum (map (deref u) (thrusters_of r)).

(** Sum of the forces of one role, each weighted by one signed component of
    its own entry of the position table. *)
Definition lever_sum (g : Globals) (u : Thrust) (r : Role) (component : vector -> Q) : Q :=
  Qsum (map (fun p => deref u p * component (position g p)) (thrusters_of r)).

Definition spec_surge (g : Globals) (u : Thrust) : Q :=
  force_sum u Surge / MASS - cmdSurge g.

Definition spec_sway (g : Globals) (u : Thrust) : Q :=
  force_sum u Sway / MASS - cmdSway g.

Definition spec_heave (g : Globals) (u : Thrust) : Q :=
  force_sum u Heave / MASS - cmdHeave g.

Definition spec_roll (g : Globals) (u : Thrust) : Q :=
  (lever_sum g u Heave y + lever_sum g u Sway z) / Ix - cmdRoll g.

Definition spec_pitch (g : Globals) (u : Thrust) : Q :=
  (lever_sum g u Surge z + lever_sum g u Heave x) / Iy - cmdPitch g.

Definition spec_yaw (g : Globals) (u : Thrust) : Q :=
  (lever_sum g u Surge y + lever_sum g u Sway x) / Iz - cmdYaw g.

(** The frame a thruster is published under by the transform service. *)
Definition frame (p : Thruster) : string :=
  match p with
  | SurgeStbdHi => "/surge_stbd_hi_thruster"
  | SurgePortHi => "/surge_port_hi_thruster"
  | SurgePortLo => "/surge_port_lo_thruster"
  | SurgeStbdLo => "/surge_stbd_lo_thruster"
  | SwayFwd => "/sway_fwd_thruster"
  | SwayAft => "/sway_aft_thruster"
  | HeavePortAft => "/heave_port_aft_thruster"
  | HeaveStbdAft => "/heave_stbd_aft_thruster"
  | HeaveStbdFwd => "/heave_stbd_fwd_thruster"
  | HeavePortFwd => "/heave_port_fwd_thruster"
  end%string.

(** The geometry table is faithful when every entry is the origin the
    service reports for the frame of that very thruster. *)
Definition geometry_faithful (listener : TransformListener) (g : Globals) : Prop :=
  forall p : Thruster,
    option_map getOrigin (listener base_link (frame p)) = Some (position g p).

(** The thruster whose frame the constructor actually copies into the entry
    of [p]. *)
Definition stored_from (p : Thruster) : Thruster :=
  match p with
  | SurgeStbdHi => SurgeStbdHi
  | SurgePortHi => SurgePortHi
  | SurgePortLo => SurgeStbdLo
  | SurgeStbdLo => SurgePortLo
  | SwayFwd => SwayFwd
  | SwayAft => SwayAft
  | HeavePortAft => HeaveStbdFwd
  | HeaveStbdAft => HeavePortFwd
  | HeaveStbdFwd => HeaveStbdAft
  | HeavePortFwd => HeavePortAft
  end.

(* ================================================================== *)
(** * The solver's contract                                           *)
(* ================================================================== *)

Definition within (lo hi : option double) (v : double) : Prop :=
  match lo with Some l => l <= v | None => True end /\
  match hi with Some h => v <= h | None => True end.

(** Every parameter block lies within its bounds. *)
Definition feasible (P : Program) (u : Thrust) : Prop :=
  forall p : Thruster, within (lower P p) (upper P p) (deref u p).

(** Box constraints are hard: from a feasible start the solver returns a
    feasible point, whatever its termination type. *)
Definition respects_bounds (Solve : SolveFn) : Prop :=
  forall (o : Options) (P : Program) (u0 : Thrust),
    feasible P u0 -> feasible P (fst (Solve o P u0)).

(** A feasible start at which every residual vanishes has zero cost and zero
    gradient: the solver stops at iteration zero and leaves it untouched. *)
Definition keeps_zero_residual_start (Solve : SolveFn) : Prop :=
  forall (o : Options) (P : Program) (u0 : Thrust),
    feasible P u0 ->
    Forall (fun r => r == 0) (residuals_at P u0) ->
    fst (Solve o P u0) = u0.

(** The forces one cycle publishes for the command [a] from the state [s],
    and the message that carries them. *)
Definition solved (Solve : SolveFn) (s : State) (a : geometry_msgs.Accel) : Thrust :=
  fst (Solve (options s) (program_of (set_targets a (globals s)) (problem s))
         zero_thrust).

Definition message (Solve : SolveFn) (s : State)
    (m : geometry_msgs.Accel * ros_Time) : ThrustStamped :=
  {| header_stamp := snd m; force := solved Solve s (fst m) |}.

(** The thrust limits, as the property every published force must have. *)
Definition within_thrust_limits (u : Thrust) : Prop :=
  forall p : Thruster, MIN_THRUST <= deref u p /\ deref u p <= MAX_THRUST.

(** A command is zero when its six components are. *)
Definition zero_command (a : geometry_msgs.Accel) : Prop :=
  geometry_msgs.x (geometry_msgs.linear a) == 0 /\
  geometry_msgs.y (geometry_msgs.linear a) == 0 /\
  geometry_msgs.z (geometry_msgs.linear a) == 0 /\
  geometry_msgs.x (geometry_msgs.angular a) == 0 /\
  geometry_msgs.y (geometry_msgs.angular a) == 0 /\
  geometry_msgs.z (geometry_msgs.angular a) == 0.

(* ================================================================== *)
(** * A reference solver: projected gradient descent                  *)
(* ================================================================== *)

(** A small solver that meets the contract, used to exercise the node: it
    stops at once on a start whose residuals all vanish, and otherwise takes
    [max_num_iterations] gradient steps on half the sum of squared
    residuals, projecting every step onto the box.  Derivatives come from
    evaluating the templated residuals on jets. *)

Definition clamp (lo hi : option double) (v : double) : double :=
  let v := match lo with
           | Some l => if Qlt_le_dec v l then l else v
           | None => v
           end in
  match hi with
  | Some h => if Qlt_le_dec h v then h else v
  | None => v
  end.

Definition seed (u : Thrust) (p q : Thruster) : Jet :=
  mkJet (deref u q) (if Thruster_eq_dec q p then 1 else 0).

Definition gradient (P : Program) (u : Thrust) (p : Thruster) : double :=
  Qsum (map (fun r : Residual =>
               let j := r Jet Scalar_Jet (seed u p) in jet_a j * jet_v j)
            (blocks P)).

Definition descent_step (rate : double) (P : Program) (u : Thrust) : Thrust :=
  store (fun p => clamp (lower P p) (upper P p)
                    (Qred (deref u p - rate * gradient P u p))).

Fixpoint descend (n : nat) (rate : double) (P : Program) (u : Thrust) : Thrust :=
  match n with
  | O => u
  | S n' => descend n' rate P (descent_step rate P u)
  end.

Definition all_zero (l : list double) : bool :=
  forallb (fun r => Qeq_bool r 0) l.

Definition descent_Solve : SolveFn := fun o P u0 =>
  if all_zero (residuals_at P u0)
  then (u0, {| termination_type := CONVERGENCE; num_iterations := 0 |})
  else (descend (max_num_iterations o) 1 P u0,
        {| termination_type := NO_CONVERGENCE;
           num_iterations := max_num_iterations o |}).

(** The same solver with its summary rewritten: the values it returns are
    untouched, what it reports about convergence is arbitrary. *)
Definition with_summary (f : Summary -> Summary) (Solve : SolveFn) : SolveFn :=
  fun o P u0 => let r := Solve o P u0 in (fst r, f (snd r)).

(* ================================================================== *)
(** * A bench configuration                                           *)
(* ================================================================== *)

(** Ten distinct thruster origins in the body frame (x forward, y to port,
    z up), laid out symmetrically about the centre of mass. *)
Definition bench_origin (p : Thruster) : vector :=
  match p with
  | SurgeStbdHi => makeVector (-0.1) (-0.2) 0.1
  | SurgePortHi => makeVector (-0.1) 0.2 0.1
  | SurgePortLo => makeVector (-0.1) 0.2 (-0.1)
  | SurgeStbdLo => makeVector (-0.1) (-0.2) (-0.1)
  | SwayFwd => makeVector 0.3 0 0
  | SwayAft => makeVector (-0.3) 0 0
  | HeavePortAft => makeVector (-0.2) 0.15 0
  | HeaveStbdAft => makeVector (-0.2) (-0.15) 0
  | HeaveStbdFwd => makeVector 0.2 (-0.15) 0
  | HeavePortFwd => makeVector 0.2 0.15 0
  end.

(** A listener that knows exactly the ten thruster frames under
    [/base_link]. *)
Definition bench_listener : TransformListener := fun target source =>
  if String.eqb target base_link then
    option_map (fun p => mk_StampedTransform (bench_origin p))
      (find (fun p => String.eqb source (frame p)) all_thrusters)
  else None.

(** A listener on which one frame never appears. *)
Definition listener_without (missing : Thruster) : TransformListener :=
  fun target source =>
    if String.eqb source (frame missing) then None
    else bench_listener target source.

Definition accel (lx ly lz ax ay az : double) : geometry_msgs.Accel :=
  {| geometry_msgs.linear := geometry_msgs.mk_Vector3 lx ly lz;
     geometry_msgs.angular := geometry_msgs.mk_Vector3 ax ay az |}.

Definition bench_uninit : Thrust :=
  {| surge_stbd_hi := 7; surge_port_hi := -3; surge_port_lo := 40;
     surge_stbd_lo := 1; sway_fwd := -25; sway_aft := 2;
     heave_port_aft := 0; heave_stbd_aft := 19; heave_stbd_fwd := -1;
     heave_port_fwd := 5 |}.

Definition bench_start : option State :=
  Solver_new bench_listener globals_at_load bench_uninit thrust_at_construction.

(** The objective the solver minimises, up to the factor one half: the sum
    of the squared residuals. *)
Definition cost (P : Program) (u : Thrust) : Q :=
  Qsum (map (fun r => r * r) (residuals_at P u)).

(** A least-squares-optimal feasible point: feasible, and no feasible point
    has a smaller cost. *)
Definition least_squares_optimal (P : Program) (u : Thrust) : Prop :=
  feasible P u /\ forall u', feasible P u' -> cost P u <= cost P u'.

(** The position table the constructor leaves on the bench, spelled out. *)
Definition bench_globals : Globals :=
  {| cmdSurge := 0; cmdSway := 0; cmdHeave := 0;
     cmdRoll := 0; cmdPitch := 0; cmdYaw := 0;
     pos_surge_stbd_hi := bench_origin (stored_from SurgeStbdHi);
     pos_surge_port_hi := bench_origin (stored_from SurgePortHi);
     pos_surge_port_lo := bench_origin (stored_from SurgePortLo);
     pos_surge_stbd_lo := bench_origin (stored_from SurgeStbdLo);
     pos_sway_fwd := bench_origin (stored_from SwayFwd);
     pos_sway_aft := bench_origin (stored_from SwayAft);
     pos_heave_port_aft := bench_origin (stored_from HeavePortAft);
     pos_heave_stbd_aft := bench_origin (stored_from HeaveStbdAft);
     pos_heave_stbd_fwd := bench_origin (stored_from HeaveStbdFwd);
     pos_heave_port_fwd := bench_origin (stored_from HeavePortFwd) |}.

(** The program of a pure roll command of 1 rad/s^2 on the bench. *)
Definition bench_roll_program : Program :=
  program_of (set_targets (accel 0 0 0 1 0 0) bench_globals) build_problem.

(** Two allocations for that command.  Both use the heave thrusters alone to
    produce the roll moment; the second adds a surge pattern that produces
    no net force and no net moment. *)
Definition roll_by_heave : Thrust :=
  {| surge_stbd_hi := 0; surge_port_hi := 0;
     surge_port_lo := 0; surge_stbd_lo := 0;
     sway_fwd := 0; sway_aft := 0;
     heave_port_aft := - (Ix / 0.6); heave_stbd_aft := Ix / 0.6;
     heave_stbd_fwd := - (Ix / 0.6); heave_port_fwd := Ix / 0.6 |}.

Definition roll_by_heave_with_surge : Thrust :=
  {| surge_stbd_hi := 1; surge_port_hi := -1;
     surge_port_lo := -1; surge_stbd_lo := 1;
     sway_fwd := 0; sway_aft := 0;
     heave_port_aft := - (Ix / 0.6); heave_stbd_aft := Ix / 0.6;
     heave_stbd_fwd := - (Ix / 0.6); heave_port_fwd := Ix / 0.6 |}.

(** All four surge thrusters at the upper limit, everything else at rest. *)
Definition saturated_surge : Thrust :=
  {| surge_stbd_hi := MAX_THRUST; surge_port_hi := MAX_THRUST;
     surge_port_lo := MAX_THRUST; surge_stbd_lo := MAX_THRUST;
     sway_fwd := 0; sway_aft := 0;
     heave_port_aft := 0; heave_stbd_aft := 0;
     heave_stbd_fwd := 0; heave_port_fwd := 0 |}.

(** The surge entries of the table are balanced when their lateral offsets
    and their vertical offsets each add up to zero: equal surge forces then
    produce neither yaw nor pitch. *)
Definition surge_balanced (g : Globals) : Prop :=
  Qsum (map (fun p => y (position g p)) (thrusters_of Surge)) == 0 /\
  Qsum (map (fun p => z (position g p)) (thrusters_of Surge)) == 0.

(** Targets of a pure surge command of [c] m/s^2. *)
Definition pure_surge_targets (c : Q) (g : Globals) : Prop :=
  cmdSurge g == c /\ cmdSway g == 0 /\ cmdHeave g == 0 /\
  cmdRoll g == 0 /\ cmdPitch g == 0 /\ cmdYaw g == 0.

(* ================================================================== *)
(** * Vocabulary for further properties of the node                   *)
(* ================================================================== *)

(** Pointwise operations on the ten unknowns. *)
Definition add_thrust (u v : Thrust) : Thrust :=
  store (fun p => deref u p + deref v p).

Definition scale_thrust (k : Q) (u : Thrust) : Thrust :=
  store (fun p => k * deref u p).

Definition neg_thrust (u : Thrust) : Thrust :=
  store (fun p => - deref u p).

(** The six components of a command, in the order in which the callback
    copies them into the targets. *)
Definition command_vector (a : geometry_msgs.Accel) : list Q :=
  [geometry_msgs.x (geometry_msgs.linear a);
   geometry_msgs.y (geometry_msgs.linear a);
   geometry_msgs.z (geometry_msgs.linear a);
   geometry_msgs.x (geometry_msgs.angular a);
   geometry_msgs.y (geometry_msgs.angular a);
   geometry_msgs.z (geometry_msgs.angular a)].

Definition zero_accel : geometry_msgs.Accel := accel 0 0 0 0 0 0.

Definition neg_accel (a : geometry_msgs.Accel) : geometry_msgs.Accel :=
  accel (- geometry_msgs.x (geometry_msgs.linear a))
        (- geometry_msgs.y (geometry_msgs.linear a))
        (- geometry_msgs.z (geometry_msgs.linear a))
        (- geometry_msgs.x (geometry_msgs.angular a))
        (- geometry_msgs.y (geometry_msgs.angular a))
        (- geometry_msgs.z (geometry_msgs.angular a)).

(** The parameter blocks handed to [AddResidualBlock] for the k-th residual
    block, in the order of the calls in the constructor. *)
Definition reads (k : nat) : list Thruster :=
  match k with
  | 0%nat => [SurgeStbdHi; SurgePortHi; SurgePortLo; SurgeStbdLo]
  | 1%nat => [SwayFwd; SwayAft]
  | 2%nat => [HeavePortAft; HeaveStbdAft; HeaveStbdFwd; HeavePortFwd]
  | 3%nat => [HeavePortAft; HeaveStbdAft; HeaveStbdFwd; HeavePortFwd;
              SwayFwd; SwayAft]
  | 4%nat => [SurgeStbdHi; SurgePortHi; SurgePortLo; SurgeStbdLo;
              HeavePortAft; HeaveStbdAft; HeaveStbdFwd; HeavePortFwd]
  | 5%nat => [SurgeStbdHi; SurgePortHi; SurgePortLo; SurgeStbdLo;
              SwayFwd; SwayAft]
  | _ => []
  end.

(** The k-th residual of a program on given member values (0 when there is
    no such block). *)
Definition residual_no (k : nat) (g : Globals) (u : Thrust) : Q :=
  nth k (residuals_at (program_of g build_problem) u) 0.

(** A 3x3 determinant with a first row of ones: rows (1 1 1), (f a, f b,
    f c), (h a, h b, h c). *)
Definition minor (f h : vector -> Q) (a b c : vector) : Q :=
  (f b * h c - f c * h b) - (f a * h c - f c * h a) + (f a * h b - f b * h a).

(** A pattern of surge forces built from the table alone: the signed minors
    of the 3x4 matrix whose columns are (1, z, y) of the four surge
    entries. *)
Definition surge_null (g : Globals) : Thrust :=
  {| surge_stbd_hi := minor z y (pos_surge_port_hi g) (pos_surge_port_lo g)
                        (pos_surge_stbd_lo g);
     surge_port_hi := - minor z y (pos_surge_stbd_hi g) (pos_surge_port_lo g)
                          (pos_surge_stbd_lo g);
     surge_port_lo := minor z y (pos_surge_stbd_hi g) (pos_surge_port_hi g)
                        (pos_surge_stbd_lo g);
     surge_stbd_lo := - minor z y (pos_surge_stbd_hi g) (pos_surge_port_hi g)
                          (pos_surge_port_lo g);
     sway_fwd := 0; sway_aft := 0;
     heave_port_aft := 0; heave_stbd_aft := 0;
     heave_stbd_fwd := 0; heave_port_fwd := 0 |}.

(** The same for the heave forces, with columns (1, y, x). *)
Definition heave_null (g : Globals) : Thrust :=
  {| surge_stbd_hi := 0; surge_port_hi := 0;
     surge_port_lo := 0; surge_stbd_lo := 0;
     sway_fwd := 0; sway_aft := 0;
     heave_port_aft := minor y x (pos_heave_stbd_aft g) (pos_heave_stbd_fwd g)
                         (pos_heave_port_fwd g);
     heave_stbd_aft := - minor y x (pos_heave_port_aft g) (pos_heave_stbd_fwd g)
                           (pos_heave_port_fwd g);
     heave_stbd_fwd := minor y x (pos_heave_port_aft g) (pos_heave_stbd_aft g)
                         (pos_heave_port_fwd g);
     heave_port_fwd := - minor y x (pos_heave_port_aft g) (pos_heave_stbd_aft g)
                           (pos_heave_stbd_fwd g) |}.

(** A pure surge command shared equally by the four surge thrusters. *)
Definition equal_split (c : Q) : Thrust :=
  {| surge_stbd_hi := MASS * c / 4; surge_port_hi := MASS * c / 4;
     surge_port_lo := MASS * c / 4; surge_stbd_lo := MASS * c / 4;
     sway_fwd := 0; sway_aft := 0;
     heave_port_aft := 0; heave_stbd_aft := 0;
     heave_stbd_fwd := 0; heave_port_fwd := 0 |}.

(** The origin the listener reports for the frame of a thruster. *)
Definition reported (listener : TransformListener) (p : Thruster) : option vector :=
  option_map getOrigin (listener base_link (frame p)).

(* ================================================================== *)
(** * Basic facts                                                     *)
(* ================================================================== *)

Lemma Thrust_eta (u : Thrust) :
  {| surge_stbd_hi := surge_stbd_hi u; surge_port_hi := surge_port_hi u;
     surge_port_lo := surge_port_lo u; surge_stbd_lo := surge_stbd_lo u;
     sway_fwd := sway_fwd u; sway_aft := sway_aft u;
     heave_port_aft := heave_port_aft u; heave_stbd_aft := heave_stbd_aft u;
     heave_stbd_fwd := heave_stbd_fwd u; heave_port_fwd := heave_port_fwd u |}
  = u.
Proof. destruct u; reflexivity. Qed.

Lemma origin_vector_getOrigin (t : StampedTransform) :
  origin_vector t = getOrigin t.
Proof. destruct t as [[vx vy vz]]; reflexivity. Qed.

Lemma deref_store (v : Thruster -> double) (p : Thruster) :
  deref (store v) p = v p.
Proof. destruct p; reflexivity. Qed.

Lemma bind_Some {A B : Type} (m : option A) (k : A -> option B) (b : B) :
  bind m k = Some b -> exists a, m = Some a /\ k a = Some b.
Proof.
  destruct m as [a|]; simpl; intros E; [exists a; auto | discriminate].
Qed.

(** Ltac: peel one [lookupTransform] off a completed constructor run. *)
Ltac peel_lookup E t Ht :=
  apply bind_Some in E; destruct E as (t & Ht & E); unfold lookupTransform in Ht.

(** What a completed constructor leaves behind: every lookup succeeded, the
    problem is [build_problem], the options are the two the node sets, and
    each entry of the position table is the origin of the frame named by
    [stored_from]. *)
Lemma Solver_new_inv listener g0 uninit thrust0 s :
  Solver_new listener g0 uninit thrust0 = Some s ->
  problem s = build_problem /\
  max_num_iterations (options s) = 100%nat /\
  linear_solver_type (options s) = DENSE_QR /\
  published s = [] /\
  forall p, option_map getOrigin (listener base_link (frame (stored_from p)))
            = Some (position (globals s) p).
Proof.
  unfold Solver_new; intros E.
  peel_lookup E surge_2 H2. peel_lookup E surge_1 H1.
  peel_lookup E surge_4 H4. peel_lookup E surge_3 H3.
  peel_lookup E sway_1 W1. peel_lookup E sway_2 W2.
  peel_lookup E heave_2 V2. peel_lookup E heave_1 V1.
  peel_lookup E heave_4 V4. peel_lookup E heave_3 V3.
  injection E as <-; cbn [problem options published globals
                          max_num_iterations linear_solver_type].
  repeat split.
  intros p; destruct p; cbn [stored_from frame position
    pos_surge_stbd_hi pos_surge_port_hi pos_surge_port_lo pos_surge_stbd_lo
    pos_sway_fwd pos_sway_aft pos_heave_port_aft pos_heave_stbd_aft
    pos_heave_stbd_fwd pos_heave_port_fwd];
  rewrite origin_vector_getOrigin;
  match goal with H : listener _ _ = Some ?t |- context [getOrigin ?t] =>
    rewrite H; reflexivity end.
Qed.

(** The constructor completes exactly when the ten frames are known. *)
Lemma Solver_new_completes listener g0 uninit thrust0 :
  (forall p, listener base_link (frame p) <> None) ->
  exists s, Solver_new listener g0 uninit thrust0 = Some s.
Proof.
  intros K. unfold Solver_new, lookupTransform.
  pose proof (K SurgePortHi) as K1. pose proof (K SurgeStbdHi) as K2.
  pose proof (K SurgePortLo) as K3. pose proof (K SurgeStbdLo) as K4.
  pose proof (K SwayFwd) as K5. pose proof (K SwayAft) as K6.
  pose proof (K HeavePortFwd) as K7. pose proof (K HeaveStbdFwd) as K8.
  pose proof (K HeavePortAft) as K9. pose proof (K HeaveStbdAft) as K10.
  cbn [frame] in *.
  repeat match goal with
  | H : ?l ?a ?b <> None |- _ =>
      destruct (l a b) eqn:?; [clear H | exfalso; apply H; reflexivity]
  end.
  cbn [bind]. eexists; reflexivity.
Qed.

(** A frame that never resolves is fatal: there is no state to run from. *)
Lemma Solver_new_fatal listener g0 uninit thrust0 p :
  listener base_link (frame p) = None ->
  Solver_new listener g0 uninit thrust0 = None.
Proof.
  intros K. destruct (Solver_new listener g0 uninit thrust0) as [s|] eqn:E;
    [exfalso | reflexivity].
  apply Solver_new_inv in E. destruct E as (_ & _ & _ & _ & G).
  assert (exists q, stored_from q = p) as [q <-]
    by (destruct p;
        [exists SurgeStbdHi | exists SurgePortHi | exists SurgeStbdLo
        | exists SurgePortLo | exists SwayFwd | exists SwayAft
        | exists HeavePortFwd | exists HeaveStbdFwd | exists HeavePortAft
        | exists HeaveStbdAft]; reflexivity).
  specialize (G q). rewrite K in G. discriminate.
Qed.

(** The bounds the constructor installs: both limits on every block. *)
Lemma build_problem_bounds (p : Thruster) :
  lower_bounds build_problem p = Some MIN_THRUST /\
  upper_bounds build_problem p = Some MAX_THRUST.
Proof. destruct p; split; reflexivity. Qed.

Lemma zero_thrust_feasible (g : Globals) :
  feasible (program_of g build_problem) zero_thrust.
Proof.
  intros p. unfold within. cbn [program_of lower upper].
  destruct (build_problem_bounds p) as [-> ->].
  destruct p; cbn; unfold MIN_THRUST, MAX_THRUST; split; lra.
Qed.

(* ================================================================== *)
(** * One cycle and many                                              *)
(* ================================================================== *)

Section Cycles.
Variable Solve : SolveFn.

(** A cycle touches neither the problem, nor the options, nor the
    position table. *)
Lemma callback_problem a now s : problem (callback Solve a now s) = problem s.
Proof. reflexivity. Qed.

Lemma callback_options a now s : options (callback Solve a now s) = options s.
Proof. reflexivity. Qed.

Lemma callback_position a now s p :
  position (globals (callback Solve a now s)) p = position (globals s) p.
Proof. destruct p; reflexivity. Qed.

(** The targets of a cycle are those of its own command: nothing of the
    targets before it is left. *)
Lemma set_targets_overwrites a a' g :
  set_targets a (set_targets a' g) = set_targets a g.
Proof. reflexivity. Qed.

(** What a later cycle solves does not depend on the cycles before it. *)
Lemma solved_after_callback a now s a' :
  solved Solve (callback Solve a now s) a' = solved Solve s a'.
Proof. reflexivity. Qed.

Lemma thrust_callback a now s :
  thrust (callback Solve a now s) = message Solve s (a, now).
Proof.
  unfold callback, message, solved; cbn [thrust fst snd].
  rewrite Thrust_eta. reflexivity.
Qed.

Lemma published_callback a now s :
  published (callback Solve a now s) = published s ++ [message Solve s (a, now)].
Proof.
  unfold callback, message, solved; cbn [published fst snd].
  rewrite Thrust_eta. reflexivity.
Qed.

Lemma loop_cons m inbox s :
  loop Solve (m :: inbox) s = loop Solve inbox (callback Solve (fst m) (snd m) s).
Proof. reflexivity. Qed.

Lemma loop_app inbox1 inbox2 s :
  loop Solve (inbox1 ++ inbox2) s = loop Solve inbox2 (loop Solve inbox1 s).
Proof. unfold loop. apply fold_left_app. Qed.

Lemma loop_problem inbox : forall s, problem (loop Solve inbox s) = problem s.
Proof.
  induction inbox as [|m inbox IH]; intros s; [reflexivity|].
  rewrite loop_cons, IH. apply callback_problem.
Qed.

Lemma loop_options inbox : forall s, options (loop Solve inbox s) = options s.
Proof.
  induction inbox as [|m inbox IH]; intros s; [reflexivity|].
  rewrite loop_cons, IH. apply callback_options.
Qed.

Lemma solved_after_loop inbox : forall s a,
  solved Solve (loop Solve inbox s) a = solved Solve s a.
Proof.
  induction inbox as [|m inbox IH]; intros s a; [reflexivity|].
  rewrite loop_cons, IH. apply solved_after_callback.
Qed.

(** The output channel after a run: one message per delivered command, in
    order, each carrying the solver's values for that command. *)
Lemma published_loop inbox : forall s,
  published (loop Solve inbox s) = published s ++ map (message Solve s) inbox.
Proof.
  induction inbox as [|m inbox IH]; intros s.
  - cbn. now rewrite app_nil_r.
  - rewrite loop_cons, IH, published_callback, <- app_assoc.
    reflexivity.
Qed.
End Cycles.

(* ================================================================== *)
(** * The residual blocks against the reference equations             *)
(* ================================================================== *)

(** The six blocks of the constructed problem, evaluated on any member
    values under any globals, are the six reference equations, in the order
    surge, sway, heave, roll, pitch, yaw. *)
Lemma residual_blocks_reference (g : Globals) (u : Thrust) :
  Forall2 Qeq (residuals_at (program_of g build_problem) u)
    [spec_surge g u; spec_sway g u; spec_heave g u;
     spec_roll g u; spec_pitch g u; spec_yaw g u].
Proof.
  unfold residuals_at, residual_at, program_of, build_problem.
  cbn [blocks residual_blocks map app Problem_new push_block
       AddResidualBlock2 AddResidualBlock4 AddResidualBlock6 AddResidualBlock8
       SetParameterLowerBound SetParameterUpperBound].
  unfold spec_surge, spec_sway, spec_heave, spec_roll, spec_pitch, spec_yaw,
    force_sum, lever_sum, surge, sway, heave, roll, pitch, yaw.
  cbn [thrusters_of all_thrusters filter role Role_eqb map Qsum fold_right
       deref position s_cast s_add s_sub s_mul s_div Scalar_double].
  repeat constructor; unfold Qdiv; ring.
Qed.

(* ================================================================== *)
(** * The reference solver meets the contract                         *)
(* ================================================================== *)

Lemma clamp_within lo hi v0 v :
  within lo hi v0 -> within lo hi (clamp lo hi v).
Proof.
  unfold within, clamp. intros [L U].
  destruct lo as [l|], hi as [h|];
    repeat match goal with
    | |- context [Qlt_le_dec ?a ?b] => destruct (Qlt_le_dec a b)
    end; split; trivial; lra.
Qed.

Lemma descent_step_feasible rate P u :
  feasible P u -> feasible P (descent_step rate P u).
Proof.
  intros F p. unfold descent_step. rewrite deref_store.
  eapply clamp_within, F.
Qed.

Lemma descend_feasible n rate P : forall u,
  feasible P u -> feasible P (descend n rate P u).
Proof.
  induction n as [|n IH]; intros u F; cbn [descend]; [exact F|].
  apply IH, descent_step_feasible, F.
Qed.

Lemma all_zero_Forall (l : list double) :
  all_zero l = true <-> Forall (fun r => r == 0) l.
Proof.
  unfold all_zero. rewrite forallb_forall, Forall_forall.
  split; intros K r I; apply Qeq_bool_iff, K, I.
Qed.

Lemma descent_respects_bounds : respects_bounds descent_Solve.
Proof.
  intros o P u0 F. unfold descent_Solve.
  destruct (all_zero (residuals_at P u0)); cbn [fst];
    [exact F | apply descend_feasible, F].
Qed.

Lemma descent_keeps_zero_residual_start : keeps_zero_residual_start descent_Solve.
Proof.
  intros o P u0 _ Z. unfold descent_Solve.
  apply all_zero_Forall in Z. rewrite Z. reflexivity.
Qed.

(* ================================================================== *)
(** * The claims                                                      *)
(* ================================================================== *)

(** C1 (the code departs from it).  The claim: after startup every entry of
    the position table is the origin the transform service reports for that
    thruster's own frame.  On the bench listener the constructor completes,
    and every entry holds the origin of the frame named by [stored_from]:
    the two low surge thrusters hold each other's origin and the four heave
    entries are permuted, so the table is not faithful; the port-low surge
    entry has the starboard-low thruster's lateral offset. *)
Theorem startup_positions_on_bench :
  exists s : State,
    bench_start = Some s /\
    (forall p, position (globals s) p = bench_origin (stored_from p)) /\
    position (globals s) SurgePortLo = bench_origin SurgeStbdLo /\
    ~ y (position (globals s) SurgePortLo) == y (bench_origin SurgePortLo) /\
    ~ geometry_faithful bench_listener (globals s).
Proof.
  eexists. split; [reflexivity|].
  split; [intros p; destruct p; reflexivity|].
  split; [reflexivity|].
  split; [cbn; intros E; discriminate E|].
  intros G. specialize (G SurgePortLo). cbn in G. discriminate G.
Qed.

(** C2.  With a solver that honours box constraints, the constructor puts
    the bounds -18 and +18 on every one of the ten parameter blocks, and
    every message published by any run of the node carries, for some
    command, exactly the values the solver returned for it (nothing is
    applied to them afterwards), each of them between -18 and +18. *)
Theorem published_forces_within_limits :
  forall Solve : SolveFn, respects_bounds Solve ->
  forall listener g0 uninit thrust0 s inbox,
    Solver_new listener g0 uninit thrust0 = Some s ->
    (forall p, lower_bounds (problem s) p = Some (-18.0) /\
               upper_bounds (problem s) p = Some 18.0) /\
    (forall m, In m (published (loop Solve inbox s)) ->
       (exists a, force m = solved Solve s a) /\
       (forall p, -18 <= deref (force m) p /\ deref (force m) p <= 18)).
Proof.
  intros Solve B listener g0 uninit thrust0 s inbox E.
  apply Solver_new_inv in E. destruct E as (Pb & _ & _ & Pub & _).
  split; [intros p; rewrite Pb; apply build_problem_bounds|].
  intros m I. rewrite published_loop, Pub in I. cbn [app] in I.
  apply in_map_iff in I. destruct I as ((a & now) & <- & _).
  cbn [message force fst snd].
  split; [exists a; reflexivity|].
  intros p. unfold solved. rewrite Pb.
  pose proof (B (options s) (program_of (set_targets a (globals s)) build_problem)
                zero_thrust (zero_thrust_feasible _) p) as W.
  unfold within in W. cbn [program_of lower upper] in W.
  destruct (build_problem_bounds p) as [L U]. rewrite L, U in W.
  unfold MIN_THRUST, MAX_THRUST in W. destruct W as [W1 W2]. split; lra.
Qed.

Lemma published_forces_within_limits_witness :
  respects_bounds descent_Solve /\
  exists s : State,
    bench_start = Some s /\
    (forall p, lower_bounds (problem s) p = Some (-18.0) /\
               upper_bounds (problem s) p = Some 18.0) /\
    (forall m,
       In m (published (loop descent_Solve
                          [(accel 3 0 0 0 0 0, 10%N); (accel 0 0 0 1 0 0, 20%N)] s)) ->
       (exists a, force m = solved descent_Solve s a) /\
       (forall p, -18 <= deref (force m) p /\ deref (force m) p <= 18)).
Proof.
  split; [exact descent_respects_bounds|].
  eexists. split; [reflexivity|].
  apply (published_forces_within_limits descent_Solve descent_respects_bounds
           bench_listener globals_at_load bench_uninit thrust_at_construction).
  reflexivity.
Defined.

(** C3.  For every value of the ten unknowns and every content of the
    globals (so every current command), the first three residual blocks of
    the constructed problem evaluate to the reference linear equations:
    (sum of the four surge forces) / MASS - cmdSurge, (sum of the two sway
    forces) / MASS - cmdSway, (sum of the four heave forces) / MASS -
    cmdHeave, with MASS = 48.8428. *)
Theorem linear_residuals_are_reference :
  forall (g : Globals) (u : Thrust),
    Forall2 Qeq (firstn 3 (residuals_at (program_of g build_problem) u))
      [spec_surge g u; spec_sway g u; spec_heave g u] /\
    List.length (thrusters_of Surge) = 4%nat /\
    List.length (thrusters_of Sway) = 2%nat /\
    List.length (thrusters_of Heave) = 4%nat.
Proof.
  intros g u. split; [|repeat split].
  pose proof (residual_blocks_reference g u) as R.
  remember (residuals_at (program_of g build_problem) u) as rs eqn:Ers.
  clear Ers.
  inversion R as [|r1 s1 l1 m1 E1 R1]; subst.
  inversion R1 as [|r2 s2 l2 m2 E2 R2]; subst.
  inversion R2 as [|r3 s3 l3 m3 E3 R3]; subst.
  cbn [firstn]. repeat constructor; assumption.
Qed.

(** C4.  For every value of the ten unknowns and every content of the
    globals, the last three residual blocks evaluate to the reference
    angular equations, in which every contributing force is multiplied by
    one signed component of its own table entry and by nothing else:
    roll = (heave forces by their y + sway forces by their z) / Ix - cmdRoll,
    pitch = (surge forces by their z + heave forces by their x) / Iy - cmdPitch,
    yaw = (surge forces by their y + sway forces by their x) / Iz - cmdYaw. *)
Theorem angular_residuals_are_reference :
  forall (g : Globals) (u : Thrust),
    Forall2 Qeq (skipn 3 (residuals_at (program_of g build_problem) u))
      [spec_roll g u; spec_pitch g u; spec_yaw g u].
Proof.
  intros g u.
  pose proof (residual_blocks_reference g u) as R.
  remember (residuals_at (program_of g build_problem) u) as rs eqn:Ers.
  clear Ers.
  inversion R as [|r1 s1 l1 m1 E1 R1]; subst.
  inversion R1 as [|r2 s2 l2 m2 E2 R2]; subst.
  inversion R2 as [|r3 s3 l3 m3 E3 R3]; subst.
  cbn [skipn]. exact R3.
Qed.

(** The six residuals of a zero command at the all-zero guess. *)
Lemma zero_command_residuals (a : geometry_msgs.Accel) (g : Globals) :
  zero_command a ->
  Forall (fun r => r == 0)
    (residuals_at (program_of (set_targets a g) build_problem) zero_thrust).
Proof.
  intros (Z1 & Z2 & Z3 & Z4 & Z5 & Z6).
  unfold residuals_at, residual_at, program_of, build_problem.
  cbn [blocks residual_blocks map app Problem_new push_block
       AddResidualBlock2 AddResidualBlock4 AddResidualBlock6 AddResidualBlock8
       SetParameterLowerBound SetParameterUpperBound].
  unfold surge, sway, heave, roll, pitch, yaw, set_targets, zero_thrust.
  cbn [deref s_cast s_add s_sub s_mul s_div Scalar_double
       surge_stbd_hi surge_port_hi surge_port_lo surge_stbd_lo
       sway_fwd sway_aft heave_port_aft heave_stbd_aft heave_stbd_fwd
       heave_port_fwd cmdSurge cmdSway cmdHeave cmdRoll cmdPitch cmdYaw
       pos_surge_stbd_hi pos_surge_port_hi pos_surge_port_lo pos_surge_stbd_lo
       pos_sway_fwd pos_sway_aft pos_heave_port_aft pos_heave_stbd_aft
       pos_heave_stbd_fwd pos_heave_port_fwd].
  repeat constructor;
    rewrite ?Z1, ?Z2, ?Z3, ?Z4, ?Z5, ?Z6; unfold Qdiv; ring.
Qed.

(** C5.  With a solver that leaves a zero-residual start alone: in any
    state the node can be in (constructed, then any number of cycles), a
    command whose six components are zero makes all six residuals zero at
    the all-zero guess, and the cycle publishes one message whose ten forces
    are the untouched guess, all zero. *)
Theorem zero_command_zero_forces :
  forall Solve : SolveFn, keeps_zero_residual_start Solve ->
  forall listener g0 uninit thrust0 s inbox a now,
    Solver_new listener g0 uninit thrust0 = Some s ->
    zero_command a ->
    let s' := loop Solve inbox s in
    let P := program_of (set_targets a (globals s')) (problem s') in
    List.length (residuals_at P zero_thrust) = 6%nat /\
    Forall (fun r => r == 0) (residuals_at P zero_thrust) /\
    published (callback Solve a now s') =
      published s' ++ [{| header_stamp := now; force := zero_thrust |}] /\
    (forall p, deref (force (thrust (callback Solve a now s'))) p == 0).
Proof.
  intros Solve K listener g0 uninit thrust0 s inbox a now E Z s' P.
  apply Solver_new_inv in E. destruct E as (Pb & _).
  assert (Pb' : problem s' = build_problem)
    by (unfold s'; now rewrite loop_problem).
  assert (R : Forall (fun r => r == 0) (residuals_at P zero_thrust))
    by (unfold P; rewrite Pb'; now apply zero_command_residuals).
  assert (S0 : solved Solve s' a = zero_thrust).
  { unfold solved. fold P. apply K; [|exact R].
    unfold P. rewrite Pb'. apply zero_thrust_feasible. }
  split; [unfold P; rewrite Pb'; reflexivity|].
  split; [exact R|].
  split.
  - rewrite published_callback. unfold message. cbn [fst snd].
    now rewrite S0.
  - intros p. rewrite thrust_callback. unfold message. cbn [force fst].
    rewrite S0. destruct p; reflexivity.
Qed.

Lemma zero_command_zero_forces_witness :
  keeps_zero_residual_start descent_Solve /\
  zero_command (accel 0 0 0 0 0 0) /\
  exists s : State,
    bench_start = Some s /\
    let s' := loop descent_Solve [(accel 0 3 0 0 0 1, 10%N)] s in
    let P := program_of (set_targets (accel 0 0 0 0 0 0) (globals s')) (problem s') in
    List.length (residuals_at P zero_thrust) = 6%nat /\
    Forall (fun r => r == 0) (residuals_at P zero_thrust) /\
    published (callback descent_Solve (accel 0 0 0 0 0 0) 20%N s') =
      published s' ++ [{| header_stamp := 20%N; force := zero_thrust |}] /\
    (forall p,
       deref (force (thrust (callback descent_Solve (accel 0 0 0 0 0 0) 20%N s'))) p
       == 0).
Proof.
  split; [exact descent_keeps_zero_residual_start|].
  split; [repeat split; reflexivity|].
  eexists. split; [reflexivity|].
  apply (zero_command_zero_forces descent_Solve descent_keeps_zero_residual_start
           bench_listener globals_at_load bench_uninit thrust_at_construction).
  - reflexivity.
  - repeat split; reflexivity.
Defined.

(** C6.  For every solver, whatever it reports: one cycle appends exactly
    one message to the output channel, stamped with the current time and
    carrying the values the solve left in the ten unknowns; a run over n
    delivered commands appends exactly n messages; and rewriting the
    solver's summary in any way (converged or not) changes nothing of what
    is published. *)
Theorem every_command_publishes_once :
  forall (Solve : SolveFn) (a : geometry_msgs.Accel) (now : ros_Time)
         (inbox : list (geometry_msgs.Accel * ros_Time)) (s : State)
         (f : Summary -> Summary),
    published (callback Solve a now s) =
      published s ++
      [{| header_stamp := now;
          force := fst (Solve (options s)
                          (program_of (set_targets a (globals s)) (problem s))
                          zero_thrust) |}] /\
    unknowns (callback Solve a now s) = force (thrust (callback Solve a now s)) /\
    List.length (published (loop Solve inbox s)) =
      (List.length (published s) + List.length inbox)%nat /\
    published (loop (with_summary f Solve) inbox s) = published (loop Solve inbox s).
Proof.
  intros Solve a now inbox s f.
  split; [apply published_callback|].
  split; [rewrite thrust_callback; reflexivity|].
  split; [now rewrite published_loop, length_app, length_map|].
  rewrite !published_loop. reflexivity.
Qed.

(** C7.  For every (deterministic) solver, command and state: a cycle
    writes the six components of the command into the six targets (linear
    x, y, z into cmdSurge, cmdSway, cmdHeave; angular x, y, z into cmdRoll,
    cmdPitch, cmdYaw), leaves the position table alone and hands the solver
    the all-zero start.  A second cycle on the same command therefore gives
    the solver the same options, the same program and the same start as the
    first, and the two published messages carry the same ten forces; the
    same holds when other commands are processed in between. *)
Theorem same_command_same_forces :
  forall (Solve : SolveFn) (a : geometry_msgs.Accel) (t1 t2 : ros_Time)
         (between : list (geometry_msgs.Accel * ros_Time)) (s : State),
    let s1 := callback Solve a t1 s in
    let s2 := callback Solve a t2 s1 in
    let s3 := callback Solve a t2 (loop Solve between s1) in
    let targets (g : Globals) :=
      [cmdSurge g; cmdSway g; cmdHeave g; cmdRoll g; cmdPitch g; cmdYaw g] in
    let command :=
      [geometry_msgs.x (geometry_msgs.linear a);
       geometry_msgs.y (geometry_msgs.linear a);
       geometry_msgs.z (geometry_msgs.linear a);
       geometry_msgs.x (geometry_msgs.angular a);
       geometry_msgs.y (geometry_msgs.angular a);
       geometry_msgs.z (geometry_msgs.angular a)] in
    let g1 :=
      {| cmdSurge := geometry_msgs.x (geometry_msgs.linear a);
         cmdSway := geometry_msgs.y (geometry_msgs.linear a);
         cmdHeave := geometry_msgs.z (geometry_msgs.linear a);
         cmdRoll := geometry_msgs.x (geometry_msgs.angular a);
         cmdPitch := geometry_msgs.y (geometry_msgs.angular a);
         cmdYaw := geometry_msgs.z (geometry_msgs.angular a);
         pos_surge_stbd_hi := pos_surge_stbd_hi (globals s);
         pos_surge_port_hi := pos_surge_port_hi (globals s);
         pos_surge_port_lo := pos_surge_port_lo (globals s);
         pos_surge_stbd_lo := pos_surge_stbd_lo (globals s);
         pos_sway_fwd := pos_sway_fwd (globals s);
         pos_sway_aft := pos_sway_aft (globals s);
         pos_heave_port_aft := pos_heave_port_aft (globals s);
         pos_heave_stbd_aft := pos_heave_stbd_aft (globals s);
         pos_heave_stbd_fwd := pos_heave_stbd_fwd (globals s);
         pos_heave_port_fwd := pos_heave_port_fwd (globals s) |} in
    let start :=
      {| surge_stbd_hi := 0.0; surge_port_hi := 0.0;
         surge_port_lo := 0.0; surge_stbd_lo := 0.0;
         sway_fwd := 0.0; sway_aft := 0.0;
         heave_port_aft := 0.0; heave_stbd_aft := 0.0;
         heave_stbd_fwd := 0.0; heave_port_fwd := 0.0 |} in
    (* the copy of the command into the targets, in both cycles *)
    targets (globals s1) = command /\
    targets (globals s2) = command /\
    targets (globals s3) = command /\
    globals s1 = g1 /\
    globals s2 = g1 /\
    (forall p, position (globals s1) p = position (globals s) p) /\
    (* what the solver is given, in both cycles *)
    (options s1, problem s1) = (options s, problem s) /\
    force (thrust s1) = fst (Solve (options s) (program_of g1 (problem s)) start) /\
    force (thrust s2) = fst (Solve (options s1) (program_of g1 (problem s1)) start) /\
    unknowns s1 = fst (Solve (options s) (program_of g1 (problem s)) start) /\
    (* as before *)
    globals s1 = set_targets a (globals s) /\
    (options s1, program_of (set_targets a (globals s1)) (problem s1)) =
      (options s, program_of (set_targets a (globals s)) (problem s)) /\
    force (thrust s1) = solved Solve s a /\
    force (thrust s2) = force (thrust s1) /\
    force (thrust s3) = force (thrust s1) /\
    published s2 =
      published s ++
      [{| header_stamp := t1;
          force := fst (Solve (options s) (program_of g1 (problem s)) start) |};
       {| header_stamp := t2;
          force := fst (Solve (options s) (program_of g1 (problem s)) start) |}] /\
    published s2 =
      published s ++ [{| header_stamp := t1; force := solved Solve s a |};
                      {| header_stamp := t2; force := solved Solve s a |}].
Proof.
  intros Solve a t1 t2 between s s1 s2 s3 targets command g1 start.
  assert (F1 : force (thrust s1) = solved Solve s a)
    by (unfold s1; rewrite thrust_callback; reflexivity).
  assert (F2 : force (thrust s2) = force (thrust s1))
    by (unfold s2; rewrite thrust_callback, F1; reflexivity).
  assert (F3 : force (thrust s3) = force (thrust s1)).
  { unfold s3. rewrite thrust_callback, F1. unfold message. cbn [force fst].
    rewrite solved_after_loop. reflexivity. }
  assert (P2 : published s2 =
               published s ++ [{| header_stamp := t1; force := solved Solve s a |};
                               {| header_stamp := t2; force := solved Solve s a |}])
    by (unfold s2, s1; rewrite !published_callback, <- app_assoc; reflexivity).
  split; [reflexivity|]. split; [reflexivity|]. split; [reflexivity|].
  split; [reflexivity|]. split; [reflexivity|].
  split; [intros p; destruct p; reflexivity|].
  split; [reflexivity|].
  split; [exact F1|].
  split; [rewrite F2; exact F1|].
  split; [reflexivity|].
  split; [reflexivity|]. split; [reflexivity|].
  split; [exact F1|]. split; [exact F2|]. split; [exact F3|].
  split; exact P2.
Qed.

(* ================================================================== *)
(** * What the equations alone say about the solved values            *)
(* ================================================================== *)

(** The remaining expectations of the specification (which thrusters a pure
    roll or a pure surge command moves, saturation at the limit) speak about
    the point the solver picks.  The node fixes the equations, the bounds and
    the start; the facts below are what follows from those. *)

(** The roll block reads no surge unknown. *)
Lemma roll_block_ignores_surge (g : Globals) (u u' : Thrust) :
  (forall p, role p <> Surge -> deref u p = deref u' p) ->
  nth 3 (residuals_at (program_of g build_problem) u) 0
  = nth 3 (residuals_at (program_of g build_problem) u') 0.
Proof.
  intros A.
  pose proof (A SwayFwd) as A1. pose proof (A SwayAft) as A2.
  pose proof (A HeavePortAft) as A3. pose proof (A HeaveStbdAft) as A4.
  pose proof (A HeaveStbdFwd) as A5. pose proof (A HeavePortFwd) as A6.
  cbn in A1, A2, A3, A4, A5, A6.
  unfold residuals_at, residual_at, program_of, build_problem.
  cbn [blocks residual_blocks map app nth Problem_new push_block
       AddResidualBlock2 AddResidualBlock4 AddResidualBlock6 AddResidualBlock8
       SetParameterLowerBound SetParameterUpperBound].
  unfold roll. cbn [deref].
  rewrite A1, A2, A3, A4, A5, A6 by discriminate. reflexivity.
Qed.

(** The surge residual vanishes exactly when the four surge forces add up to
    mass times commanded acceleration. *)
Lemma surge_residual_zero_iff (g : Globals) (u : Thrust) :
  nth 0 (residuals_at (program_of g build_problem) u) 1 == 0 <->
  force_sum u Surge == MASS * cmdSurge g.
Proof.
  unfold residuals_at, residual_at, program_of, build_problem.
  cbn [blocks residual_blocks map app nth Problem_new push_block
       AddResidualBlock2 AddResidualBlock4 AddResidualBlock6 AddResidualBlock8
       SetParameterLowerBound SetParameterUpperBound].
  unfold surge, force_sum.
  cbn [thrusters_of all_thrusters filter role Role_eqb map Qsum fold_right
       deref s_cast s_add s_sub s_mul s_div Scalar_double].
  unfold MASS.
  set (a := surge_stbd_hi u). set (b := surge_port_hi u).
  set (c := surge_port_lo u). set (d := surge_stbd_lo u).
  set (k := cmdSurge g).
  split; intros E.
  - assert (E' : (a + b + c + d) / 48.8428 == k) by lra.
    assert (E2 : a + b + c + d == ((a + b + c + d) / 48.8428) * 48.8428)
      by (field; discriminate).
    rewrite E' in E2. lra.
  - assert (E2 : (a + b + c + d) / 48.8428 == (48.8428 * k) / 48.8428)
      by (apply Qmult_comp; [lra | reflexivity]).
    assert (E3 : (48.8428 * k) / 48.8428 == k) by (field; discriminate).
    lra.
Qed.

(** Within the thrust limits the surge residual of a 3 m/s^2 command stays
    below 72 / MASS - 3, which is negative: it cannot vanish. *)
Lemma surge_residual_beyond_limits (g : Globals) (u : Thrust) :
  within_thrust_limits u ->
  cmdSurge g == 3 ->
  nth 0 (residuals_at (program_of g build_problem) u) 0 <= 72 / MASS - 3 /\
  72 / MASS - 3 < 0.
Proof.
  intros W K.
  unfold residuals_at, residual_at, program_of, build_problem.
  cbn [blocks residual_blocks map app nth Problem_new push_block
       AddResidualBlock2 AddResidualBlock4 AddResidualBlock6 AddResidualBlock8
       SetParameterLowerBound SetParameterUpperBound].
  unfold surge.
  cbn [deref s_cast s_add s_sub s_mul s_div Scalar_double].
  destruct (W SurgeStbdHi) as [_ W1]. destruct (W SurgePortHi) as [_ W2].
  destruct (W SurgePortLo) as [_ W3]. destruct (W SurgeStbdLo) as [_ W4].
  cbn [deref] in W1, W2, W3, W4. unfold MAX_THRUST in *.
  rewrite K. unfold Qdiv, MASS.
  set (i := / 48.8428).
  assert (Hi : 0 < i) by (unfold i; reflexivity).
  assert (Hi' : i * 72 - 3 < 0) by (unfold i; reflexivity).
  split; [|lra].
  assert (M : (surge_stbd_hi u + surge_port_hi u + surge_port_lo u
               + surge_stbd_lo u) * i <= 72 * i)
    by (apply Qmult_le_compat_r; lra).
  lra.
Qed.

Lemma Qsum_squares_nonneg (l : list Q) : 0 <= Qsum (map (fun r => r * r) l).
Proof.
  induction l as [|r l IH]; cbn [map Qsum fold_right]; [lra|].
  fold (Qsum (map (fun r => r * r) l)). nra.
Qed.

(** A feasible point at which every residual vanishes is least-squares
    optimal. *)
Lemma zero_residuals_optimal (P : Program) (u : Thrust) :
  feasible P u ->
  Forall (fun r => r == 0) (residuals_at P u) ->
  least_squares_optimal P u.
Proof.
  intros F Z. split; [exact F|]. intros u' _.
  assert (C0 : cost P u == 0).
  { unfold cost. induction Z as [|r l Hr Z IH]; cbn [map Qsum fold_right];
      [reflexivity|].
    fold (Qsum (map (fun r => r * r) l)). rewrite IH, Hr. ring. }
  rewrite C0. apply Qsum_squares_nonneg.
Qed.

(** The optimum of a pure roll command is not unique, and the optimal points
    disagree on the surge forces: on the bench, both allocations above are
    least-squares optimal within the bounds, one with every surge force at
    zero and one with every surge force at magnitude one. *)
Lemma pure_roll_optimum_not_unique :
  least_squares_optimal bench_roll_program roll_by_heave /\
  least_squares_optimal bench_roll_program roll_by_heave_with_surge /\
  (forall p, role p = Surge -> deref roll_by_heave p == 0) /\
  (forall p, role p = Surge -> Qabs (deref roll_by_heave_with_surge p) == 1).
Proof.
  assert (B : forall u,
            (forall p, Qle_bool MIN_THRUST (deref u p)
                       && Qle_bool (deref u p) MAX_THRUST = true) ->
            feasible bench_roll_program u).
  { intros u K p. specialize (K p). apply andb_true_iff in K.
    destruct K as [K1 K2]. apply Qle_bool_iff in K1, K2.
    unfold within, bench_roll_program. cbn [program_of lower upper].
    destruct (build_problem_bounds p) as [-> ->]. split; assumption. }
  split; [|split; [|split]].
  - apply zero_residuals_optimal.
    + apply B. intros p; destruct p; vm_compute; reflexivity.
    + apply all_zero_Forall. vm_compute. reflexivity.
  - apply zero_residuals_optimal.
    + apply B. intros p; destruct p; vm_compute; reflexivity.
    + apply all_zero_Forall. vm_compute. reflexivity.
  - intros p; destruct p; cbn; intros E; try discriminate E; reflexivity.
  - intros p; destruct p; cbn; intros E; try discriminate E; reflexivity.
Qed.

(** The bench table is the one the constructor builds from the bench
    listener. *)
Lemma bench_globals_constructed :
  exists s, bench_start = Some s /\
            forall p, position (globals s) p = position bench_globals p.
Proof.
  eexists. split; [reflexivity|]. intros p; destruct p; reflexivity.
Qed.

(** With a balanced surge table, every least-squares-optimal feasible point
    of a pure surge command of 3 m/s^2 has all four surge forces at 18 N. *)
Lemma saturation_at_balanced_optimum (g : Globals) (u : Thrust) :
  pure_surge_targets 3 g ->
  surge_balanced g ->
  least_squares_optimal (program_of g build_problem) u ->
  forall p, role p = Surge -> deref u p == 18.
Proof.
  intros (C1 & C2 & C3 & C4 & C5 & C6) B (F & Opt).
  assert (Fs : feasible (program_of g build_problem) saturated_surge).
  { intros p. unfold within. cbn [program_of lower upper].
    destruct (build_problem_bounds p) as [-> ->].
    destruct p; cbn; unfold MIN_THRUST, MAX_THRUST; split; lra. }
  specialize (Opt _ Fs).
  assert (W : within_thrust_limits u).
  { intros p. specialize (F p). unfold within in F.
    cbn [program_of lower upper] in F.
    destruct (build_problem_bounds p) as [L U]. rewrite L, U in F. exact F. }
  unfold cost, residuals_at, residual_at, program_of, build_problem in Opt.
  cbn [blocks residual_blocks map app nth Problem_new push_block
       AddResidualBlock2 AddResidualBlock4 AddResidualBlock6 AddResidualBlock8
       SetParameterLowerBound SetParameterUpperBound Qsum fold_right] in Opt.
  unfold surge, sway, heave, roll, pitch, yaw, saturated_surge in Opt.
  cbn [deref s_cast s_add s_sub s_mul s_div Scalar_double
       surge_stbd_hi surge_port_hi surge_port_lo surge_stbd_lo
       sway_fwd sway_aft heave_port_aft heave_stbd_aft heave_stbd_fwd
       heave_port_fwd] in Opt.
  unfold surge_balanced in B. destruct B as [By Bz].
  cbn [thrusters_of all_thrusters filter role Role_eqb map Qsum fold_right
       position] in By, Bz.
  unfold MAX_THRUST in Opt. rewrite C1, C2, C3, C4, C5, C6 in Opt.
  match type of Opt with
  | _ <= _ + (?b * _ + (?c * _ + ((?n4 / Ix - 0) * _
           + ((?n5 / Iy - 0) * _ + ((?n6 / Iz - 0) * _ + 0))))) =>
      assert (E2 : b == 0) by (unfold Qdiv; ring);
      assert (E3 : c == 0) by (unfold Qdiv; ring);
      assert (E4 : n4 == 0) by ring;
      assert (E5 : n5 == 0) by lra;
      assert (E6 : n6 == 0) by lra;
      rewrite E2, E3, E4, E5, E6 in Opt
  end.
  match type of Opt with
  | _ + (?r2 * _ + (?r3 * _ + (?r4 * _ + (?r5 * _ + (?r6 * _ + 0))))) <= _ =>
      pose proof (Qsum_squares_nonneg [r2; r3; r4; r5; r6]) as T;
      cbn [map Qsum fold_right] in T;
      set (tail := r2 * r2 + (r3 * r3 + (r4 * r4 + (r5 * r5 + (r6 * r6 + 0)))))
        in Opt, T
  end.
  destruct (W SurgeStbdHi) as [_ W1]. destruct (W SurgePortHi) as [_ W2].
  destruct (W SurgePortLo) as [_ W3]. destruct (W SurgeStbdLo) as [_ W4].
  cbn [deref] in W1, W2, W3, W4. unfold MAX_THRUST in W1, W2, W3, W4.
  unfold Qdiv, MASS in Opt.
  set (i := / 48.8428) in Opt.
  assert (Hi : i == 10000 # 488428) by reflexivity.
  set (S := surge_stbd_hi u + surge_port_hi u + surge_port_lo u
            + surge_stbd_lo u) in Opt.
  assert (HS : S <= 72) by (unfold S; lra).
  assert (E : S == 72).
  { rewrite Hi in Opt. nra. }
  unfold S in E.
  intros p Hp; destruct p; try discriminate Hp; cbn [deref]; lra.
Qed.

(* ================================================================== *)
(** * The model at work on the bench                                  *)
(* ================================================================== *)

Example startup_dies_without_a_frame :
  Solver_new (listener_without HeavePortAft) globals_at_load bench_uninit
    thrust_at_construction = None.
Proof. reflexivity. Qed.

Example bench_zero_command_publishes_zero :
  option_map
    (fun s => published (callback descent_Solve (accel 0 0 0 0 0 0) 5%N s))
    bench_start
  = Some [{| header_stamp := 5%N; force := zero_thrust |}].
Proof. vm_compute. reflexivity. Qed.

(** Two descent steps on a pure surge command of 3 m/s^2 from the all-zero
    guess: the four surge forces move together, the six others stay put. *)
Example bench_two_steps_of_pure_surge :
  let P := program_of (set_targets (accel 3 0 0 0 0 0) bench_globals) build_problem in
  let u := descend 2 1 P zero_thrust in
  forallb (fun p => Qeq_bool (deref u p)
                      (match role p with
                       | Surge => 6 / MASS - 12 / (MASS * MASS * MASS)
                       | _ => 0
                       end))
          all_thrusters = true.
Proof. vm_compute. reflexivity. Qed.

(* ================================================================== *)
(** * Further properties: startup                                     *)
(* ================================================================== *)

(** X1.  Whenever the constructor completes, the table entry of every
    thruster [p] is the origin the listener reports for the frame of
    [stored_from p]: the thruster's own frame for the two high surge and the
    two sway thrusters, another thruster's frame for the other six. *)
Theorem constructor_fills_table_from_stored_frames :
  forall listener g0 uninit thrust0 s,
    Solver_new listener g0 uninit thrust0 = Some s ->
    forall p, reported listener (stored_from p) = Some (position (globals s) p).
Proof.
  intros listener g0 uninit thrust0 s E p.
  apply Solver_new_inv in E. destruct E as (_ & _ & _ & _ & G). apply G.
Qed.

Lemma constructor_fills_table_from_stored_frames_witness :
  exists s, bench_start = Some s /\
    forall p, reported bench_listener (stored_from p)
              = Some (position (globals s) p).
Proof.
  eexists. split; [reflexivity|].
  apply (constructor_fills_table_from_stored_frames bench_listener
           globals_at_load bench_uninit thrust_at_construction).
  reflexivity.
Defined.

(** X2.  If the listener has no transform for the frame of any one of the
    ten thrusters, the constructor does not complete and [main] ends without
    a state: no command is processed and nothing is published. *)
Theorem startup_is_fatal_without_a_frame :
  forall Solve listener g0 uninit thrust0 inbox p,
    listener base_link (frame p) = None ->
    Solver_new listener g0 uninit thrust0 = None /\
    main Solve listener uninit inbox = None.
Proof.
  intros Solve listener g0 uninit thrust0 inbox p K.
  split; [eapply Solver_new_fatal, K|].
  unfold main. erewrite Solver_new_fatal by exact K. reflexivity.
Qed.

Lemma startup_is_fatal_without_a_frame_witness :
  listener_without SwayAft base_link (frame SwayAft) = None /\
  Solver_new (listener_without SwayAft) globals_at_load bench_uninit
    thrust_at_construction = None /\
  main descent_Solve (listener_without SwayAft) bench_uninit
    [(accel 1 0 0 0 0 0, 3%N)] = None.
Proof.
  split; [reflexivity|].
  apply (startup_is_fatal_without_a_frame descent_Solve
           (listener_without SwayAft) globals_at_load bench_uninit
           thrust_at_construction [(accel 1 0 0 0 0 0, 3%N)] SwayAft).
  reflexivity.
Defined.

(** X3.  If the listener knows all ten thruster frames under [/base_link],
    the constructor completes; the state it leaves has published nothing,
    holds six residual blocks, an iteration cap of 100 and the dense QR
    linear solver, and has neither initialised the ten unknowns nor touched
    the six targets. *)
Theorem startup_completes_with_ten_frames :
  forall listener g0 uninit thrust0,
    (forall p, listener base_link (frame p) <> None) ->
    exists s,
      Solver_new listener g0 uninit thrust0 = Some s /\
      published s = [] /\
      List.length (residual_blocks (problem s)) = 6%nat /\
      max_num_iterations (options s) = 100%nat /\
      linear_solver_type (options s) = DENSE_QR /\
      unknowns s = uninit /\
      thrust s = thrust0 /\
      (cmdSurge (globals s), cmdSway (globals s), cmdHeave (globals s),
       cmdRoll (globals s), cmdPitch (globals s), cmdYaw (globals s))
      = (cmdSurge g0, cmdSway g0, cmdHeave g0,
         cmdRoll g0, cmdPitch g0, cmdYaw g0).
Proof.
  intros listener g0 uninit thrust0 K.
  destruct (Solver_new_completes listener g0 uninit thrust0 K) as [s E].
  exists s. split; [exact E|].
  pose proof (Solver_new_inv _ _ _ _ _ E) as (Pb & It & Ls & Pub & _).
  split; [exact Pub|]. split; [rewrite Pb; reflexivity|].
  split; [exact It|]. split; [exact Ls|].
  unfold Solver_new in E.
  repeat (apply bind_Some in E; destruct E as (? & _ & E)).
  injection E as <-. repeat split.
Qed.

Lemma bench_listener_complete :
  forall p, bench_listener base_link (frame p) <> None.
Proof. intros p; destruct p; discriminate. Qed.

Lemma startup_completes_with_ten_frames_witness :
  (forall p, bench_listener base_link (frame p) <> None) /\
  exists s,
    Solver_new bench_listener globals_at_load bench_uninit
      thrust_at_construction = Some s /\
    published s = [] /\
    List.length (residual_blocks (problem s)) = 6%nat /\
    max_num_iterations (options s) = 100%nat /\
    linear_solver_type (options s) = DENSE_QR /\
    unknowns s = bench_uninit /\
    thrust s = thrust_at_construction /\
    (cmdSurge (globals s), cmdSway (globals s), cmdHeave (globals s),
     cmdRoll (globals s), cmdPitch (globals s), cmdYaw (globals s))
    = (cmdSurge globals_at_load, cmdSway globals_at_load,
       cmdHeave globals_at_load, cmdRoll globals_at_load,
       cmdPitch globals_at_load, cmdYaw globals_at_load).
Proof.
  split; [exact bench_listener_complete|].
  apply (startup_completes_with_ten_frames bench_listener globals_at_load
           bench_uninit thrust_at_construction).
  intros p; destruct p; discriminate.
Defined.

(** X4.  After a completed startup the table is faithful (every entry is
    the origin of the thruster's own frame) exactly when the listener
    reports one and the same origin for the two low surge thrusters and one
    and the same origin for all four heave thrusters. *)
Theorem table_faithful_iff_swapped_origins_coincide :
  forall listener g0 uninit thrust0 s,
    Solver_new listener g0 uninit thrust0 = Some s ->
    (geometry_faithful listener (globals s) <->
     reported listener SurgePortLo = reported listener SurgeStbdLo /\
     reported listener HeavePortAft = reported listener HeaveStbdAft /\
     reported listener HeaveStbdAft = reported listener HeaveStbdFwd /\
     reported listener HeaveStbdFwd = reported listener HeavePortFwd).
Proof.
  intros listener g0 uninit thrust0 s E.
  apply Solver_new_inv in E. destruct E as (_ & _ & _ & _ & G).
  unfold geometry_faithful, reported.
  split.
  - intros F.
    pose proof (G SurgePortLo) as G1. pose proof (F SurgePortLo) as F1.
    pose proof (G HeavePortAft) as G2. pose proof (F HeavePortAft) as F2.
    pose proof (G HeaveStbdAft) as G3. pose proof (F HeaveStbdAft) as F3.
    pose proof (G HeaveStbdFwd) as G4. pose proof (F HeaveStbdFwd) as F4.
    pose proof (G HeavePortFwd) as G5. pose proof (F HeavePortFwd) as F5.
    cbn [stored_from] in *.
    repeat split; congruence.
  - intros (S1 & H1 & H2 & H3) p.
    pose proof (G p) as Gp.
    destruct p; cbn [stored_from] in Gp; congruence.
Qed.

Lemma table_faithful_iff_swapped_origins_coincide_witness :
  exists s, bench_start = Some s /\
    (geometry_faithful bench_listener (globals s) <->
     reported bench_listener SurgePortLo = reported bench_listener SurgeStbdLo /\
     reported bench_listener HeavePortAft = reported bench_listener HeaveStbdAft /\
     reported bench_listener HeaveStbdAft = reported bench_listener HeaveStbdFwd /\
     reported bench_listener HeaveStbdFwd = reported bench_listener HeavePortFwd).
Proof.
  eexists. split; [reflexivity|].
  apply (table_faithful_iff_swapped_origins_coincide bench_listener
           globals_at_load bench_uninit thrust_at_construction).
  reflexivity.
Defined.

(* ================================================================== *)
(** * Further properties: runs                                        *)
(* ================================================================== *)

Lemma targets_after_loop (Solve : SolveFn) inbox : forall s a,
  set_targets a (globals (loop Solve inbox s)) = set_targets a (globals s).
Proof.
  induction inbox as [|m inbox IH]; intros s a; [reflexivity|].
  rewrite loop_cons, IH. reflexivity.
Qed.

Lemma position_after_loop (Solve : SolveFn) inbox : forall s p,
  position (globals (loop Solve inbox s)) p = position (globals s) p.
Proof.
  induction inbox as [|m inbox IH]; intros s p; [reflexivity|].
  rewrite loop_cons, IH. apply callback_position.
Qed.

(** X5.  A run over any list of commands, with any solver, leaves the
    problem, the options and all ten entries of the position table as they
    were; after a run that ends with the command [a], the six targets are
    the six components of [a], whatever was commanded before, and the ten
    unknowns and the message member hold what was published last. *)
Theorem run_keeps_configuration_and_last_command :
  forall (Solve : SolveFn) inbox a now s,
    let s' := loop Solve (inbox ++ [(a, now)]) s in
    problem s' = problem s /\
    options s' = options s /\
    (forall p, position (globals s') p = position (globals s) p) /\
    globals s' = set_targets a (globals s) /\
    [cmdSurge (globals s'); cmdSway (globals s'); cmdHeave (globals s');
     cmdRoll (globals s'); cmdPitch (globals s'); cmdYaw (globals s')]
    = command_vector a /\
    last (published s') (thrust s) = thrust s' /\
    unknowns s' = force (thrust s').
Proof.
  intros Solve inbox a now s s'.
  assert (G : globals s' = set_targets a (globals s)).
  { unfold s'. rewrite loop_app. cbn [loop fold_left fst snd].
    change (globals (callback Solve a now (loop Solve inbox s)))
      with (set_targets a (globals (loop Solve inbox s))).
    apply targets_after_loop. }
  split; [apply loop_problem|]. split; [apply loop_options|].
  split; [intros p; apply position_after_loop|].
  split; [exact G|].
  split; [rewrite G; reflexivity|].
  unfold s'. rewrite loop_app. cbn [loop fold_left fst snd].
  split.
  - rewrite published_callback, last_last, thrust_callback. reflexivity.
  - rewrite thrust_callback. reflexivity.
Qed.



(* ================================================================== *)
(** * Further properties: the equations                               *)
(* ================================================================== *)

(** Ltac: write the residuals of the constructed problem out as arithmetic
    on the members and the globals. *)
Ltac expand_residuals :=
  unfold cost, residual_no, residuals_at, residual_at, program_of, build_problem;
  cbn [blocks residual_blocks map app nth Problem_new push_block
       AddResidualBlock2 AddResidualBlock4 AddResidualBlock6 AddResidualBlock8
       SetParameterLowerBound SetParameterUpperBound];
  unfold surge, sway, heave, roll, pitch, yaw, set_targets, zero_accel,
    neg_accel, accel, add_thrust, scale_thrust, neg_thrust, store,
    zero_thrust, command_vector;
  cbn [deref s_cast s_add s_sub s_mul s_div Scalar_double
       surge_stbd_hi surge_port_hi surge_port_lo surge_stbd_lo
       sway_fwd sway_aft heave_port_aft heave_stbd_aft heave_stbd_fwd
       heave_port_fwd cmdSurge cmdSway cmdHeave cmdRoll cmdPitch cmdYaw
       pos_surge_stbd_hi pos_surge_port_hi pos_surge_port_lo pos_surge_stbd_lo
       pos_sway_fwd pos_sway_aft pos_heave_port_aft pos_heave_stbd_aft
       pos_heave_stbd_fwd pos_heave_port_fwd
       geometry_msgs.x geometry_msgs.y geometry_msgs.z
       geometry_msgs.linear geometry_msgs.angular
       combine map fst snd Qsum fold_right].

(** X7.  Each residual block depends on the unknowns only through the
    parameter blocks it was registered with: two settings of the ten
    unknowns that agree on those give the same residual.  In particular the
    surge block ignores sway and heave forces, the roll block ignores surge
    forces, the pitch block ignores sway forces and the yaw block ignores
    heave forces. *)
Theorem block_reads_only_its_parameters :
  forall (k : nat) (g : Globals) (u u' : Thrust),
    (forall p, In p (reads k) -> deref u p = deref u' p) ->
    residual_no k g u = residual_no k g u'.
Proof.
  intros k g u u' A.
  assert (A' : forall p, existsb (fun q => if Thruster_eq_dec q p
                                           then true else false) (reads k) = true ->
                         deref u p = deref u' p).
  { intros p E. apply A. apply existsb_exists in E.
    destruct E as (q & I & E). destruct (Thruster_eq_dec q p); [subst; exact I|discriminate]. }
  clear A.
  do 6 (destruct k as [|k];
        [expand_residuals;
         repeat match goal with
         | |- context [?f u] =>
             match type of (f u) with
             | double => first
                 [ rewrite (A' SurgeStbdHi eq_refl : f u = f u')
                 | rewrite (A' SurgePortHi eq_refl : f u = f u')
                 | rewrite (A' SurgePortLo eq_refl : f u = f u')
                 | rewrite (A' SurgeStbdLo eq_refl : f u = f u')
                 | rewrite (A' SwayFwd eq_refl : f u = f u')
                 | rewrite (A' SwayAft eq_refl : f u = f u')
                 | rewrite (A' HeavePortAft eq_refl : f u = f u')
                 | rewrite (A' HeaveStbdAft eq_refl : f u = f u')
                 | rewrite (A' HeaveStbdFwd eq_refl : f u = f u')
                 | rewrite (A' HeavePortFwd eq_refl : f u = f u') ]
             end
         end; reflexivity|]).
  unfold residual_no, residuals_at, program_of, build_problem.
  cbn [blocks residual_blocks map app nth Problem_new push_block
       AddResidualBlock2 AddResidualBlock4 AddResidualBlock6 AddResidualBlock8
       SetParameterLowerBound SetParameterUpperBound].
  destruct k; reflexivity.
Qed.

Lemma block_reads_only_its_parameters_witness :
  (forall p, In p (reads 3) ->
             deref roll_by_heave p = deref roll_by_heave_with_surge p) /\
  residual_no 3 bench_globals roll_by_heave
  = residual_no 3 bench_globals roll_by_heave_with_surge.
Proof.
  assert (A : forall p, In p (reads 3) ->
                deref roll_by_heave p = deref roll_by_heave_with_surge p).
  { intros p I. cbn [reads In] in I.
    repeat (destruct I as [<- | I]; [reflexivity|]). destruct I. }
  split; [exact A|].
  apply (block_reads_only_its_parameters 3 bench_globals roll_by_heave
           roll_by_heave_with_surge A).
Defined.

(** X8.  The residuals are affine in the unknowns, with a slope that does
    not depend on the targets: for all member values [u], [v] and every
    factor [k], the six residuals at [u + k v] are those at [u] plus [k]
    times the residuals that [v] has under zero targets. *)
Theorem residuals_are_affine :
  forall (g : Globals) (u v : Thrust) (k : Q),
    Forall2 Qeq
      (residuals_at (program_of g build_problem) (add_thrust u (scale_thrust k v)))
      (map (fun rd => fst rd + k * snd rd)
         (combine (residuals_at (program_of g build_problem) u)
                  (residuals_at (program_of (set_targets zero_accel g) build_problem) v))).
Proof.
  intros g u v k. expand_residuals.
  repeat constructor; unfold Qdiv; ring.
Qed.

(** X9.  The callback's six assignments route the command into the
    equations component by component and unscaled: under the targets of a
    command [a] each residual is the residual under zero targets minus the
    matching component of [a] (linear x, y, z to surge, sway, heave; angular
    x, y, z to roll, pitch, yaw).  At the all-zero guess the residual vector
    is therefore minus the command and the cost is the sum of the squares
    of its components, for every position table. *)
Theorem command_enters_as_offset :
  forall (a : geometry_msgs.Accel) (g : Globals) (u : Thrust),
    Forall2 Qeq
      (residuals_at (program_of (set_targets a g) build_problem) u)
      (map (fun rc => fst rc - snd rc)
         (combine (residuals_at (program_of (set_targets zero_accel g) build_problem) u)
                  (command_vector a))) /\
    Forall2 Qeq
      (residuals_at (program_of (set_targets a g) build_problem) zero_thrust)
      (map Qopp (command_vector a)) /\
    cost (program_of (set_targets a g) build_problem) zero_thrust
    == Qsum (map (fun c => c * c) (command_vector a)).
Proof.
  intros a g u. split; [|split]; expand_residuals;
    try (repeat constructor); unfold Qdiv; ring.
Qed.

(** X10.  Within the thrust limits the linear acceleration the equations
    credit to the thrusters is bounded: surge and heave (four thrusters
    each) by 72 / MASS, sway (two thrusters) by 36 / MASS.  The residual
    plus its target is that credited acceleration. *)
Theorem linear_acceleration_is_bounded :
  forall (g : Globals) (u : Thrust),
    within_thrust_limits u ->
    (- (72 / MASS) <= residual_no 0 g u + cmdSurge g /\
     residual_no 0 g u + cmdSurge g <= 72 / MASS) /\
    (- (36 / MASS) <= residual_no 1 g u + cmdSway g /\
     residual_no 1 g u + cmdSway g <= 36 / MASS) /\
    (- (72 / MASS) <= residual_no 2 g u + cmdHeave g /\
     residual_no 2 g u + cmdHeave g <= 72 / MASS).
Proof.
  intros g u W.
  pose proof (W SurgeStbdHi) as [L1 U1]. pose proof (W SurgePortHi) as [L2 U2].
  pose proof (W SurgePortLo) as [L3 U3]. pose proof (W SurgeStbdLo) as [L4 U4].
  pose proof (W SwayFwd) as [L5 U5]. pose proof (W SwayAft) as [L6 U6].
  pose proof (W HeavePortAft) as [L7 U7]. pose proof (W HeaveStbdAft) as [L8 U8].
  pose proof (W HeaveStbdFwd) as [L9 U9]. pose proof (W HeavePortFwd) as [L10 U10].
  cbn [deref] in *. unfold MIN_THRUST, MAX_THRUST in *.
  expand_residuals. unfold Qdiv, MASS.
  set (i := / 48.8428).
  assert (Hi : i == 10000 # 488428) by reflexivity.
  rewrite Hi. repeat split; lra.
Qed.

Lemma saturated_surge_within_limits : within_thrust_limits saturated_surge.
Proof.
  intros p; destruct p; cbn; unfold MIN_THRUST, MAX_THRUST; split; lra.
Qed.

Lemma linear_acceleration_is_bounded_witness :
  within_thrust_limits saturated_surge /\
  (- (72 / MASS) <= residual_no 0 bench_globals saturated_surge + cmdSurge bench_globals /\
   residual_no 0 bench_globals saturated_surge + cmdSurge bench_globals <= 72 / MASS) /\
  (- (36 / MASS) <= residual_no 1 bench_globals saturated_surge + cmdSway bench_globals /\
   residual_no 1 bench_globals saturated_surge + cmdSway bench_globals <= 36 / MASS) /\
  (- (72 / MASS) <= residual_no 2 bench_globals saturated_surge + cmdHeave bench_globals /\
   residual_no 2 bench_globals saturated_surge + cmdHeave bench_globals <= 72 / MASS).
Proof.
  split; [exact saturated_surge_within_limits|].
  apply (linear_acceleration_is_bounded bench_globals saturated_surge).
  intros p; destruct p; cbn; unfold MIN_THRUST, MAX_THRUST; split; lra.
Defined.

Lemma lever_term_bound (f c : Q) :
  -18 <= f -> f <= 18 ->
  - (18 * Qabs c) <= f * c /\ f * c <= 18 * Qabs c.
Proof.
  intros L U. apply Qabs_case; intros S; split; nra.
Qed.

Ltac bound_lever_terms B u :=
  repeat match goal with
    | |- context [?f u * ?c] =>
        let H := fresh "T" in
        first [ pose proof (B SurgeStbdHi c : _ <= f u * c /\ f u * c <= _) as H
              | pose proof (B SurgePortHi c : _ <= f u * c /\ f u * c <= _) as H
              | pose proof (B SurgePortLo c : _ <= f u * c /\ f u * c <= _) as H
              | pose proof (B SurgeStbdLo c : _ <= f u * c /\ f u * c <= _) as H
              | pose proof (B SwayFwd c : _ <= f u * c /\ f u * c <= _) as H
              | pose proof (B SwayAft c : _ <= f u * c /\ f u * c <= _) as H
              | pose proof (B HeavePortAft c : _ <= f u * c /\ f u * c <= _) as H
              | pose proof (B HeaveStbdAft c : _ <= f u * c /\ f u * c <= _) as H
              | pose proof (B HeaveStbdFwd c : _ <= f u * c /\ f u * c <= _) as H
              | pose proof (B HeavePortFwd c : _ <= f u * c /\ f u * c <= _) as H ];
        let t := fresh "t" in set (t := f u * c) in *
    end.

Ltac scale_by_inverse :=
  match goal with
  | |- - (?b * / ?I) <= ?n * / ?I /\ _ =>
      let HN := fresh "HN" in
      assert (HN : - b <= n /\ n <= b) by (split; lra);
      destruct HN; split;
      [ setoid_replace (- (b * / I)) with ((- b) * / I) by ring;
        apply Qmult_le_compat_r; assumption
      | apply Qmult_le_compat_r; assumption ]
  end.

(** X11.  Within the thrust limits the angular acceleration the equations
    credit to the thrusters is bounded by 18 N times the sum of the absolute
    lever components the block uses, divided by the moment of inertia: roll
    by the y of the heave entries and the z of the sway entries over Ix,
    pitch by the z of the surge and the x of the heave entries over Iy, yaw
    by the y of the surge and the x of the sway entries over Iz. *)
Theorem angular_acceleration_is_bounded :
  forall (g : Globals) (u : Thrust),
    within_thrust_limits u ->
    let reach (r : Role) (c : vector -> Q) :=
      Qsum (map (fun p => Qabs (c (position g p))) (thrusters_of r)) in
    Qabs (residual_no 3 g u + cmdRoll g) <= 18 * (reach Heave y + reach Sway z) / Ix /\
    Qabs (residual_no 4 g u + cmdPitch g) <= 18 * (reach Surge z + reach Heave x) / Iy /\
    Qabs (residual_no 5 g u + cmdYaw g) <= 18 * (reach Surge y + reach Sway x) / Iz.
Proof.
  intros g u W reach. unfold reach.
  cbn [thrusters_of all_thrusters filter role Role_eqb map Qsum fold_right position].
  assert (B : forall p c, - (18 * Qabs c) <= deref u p * c /\
                          deref u p * c <= 18 * Qabs c).
  { intros p c. destruct (W p) as [L U]. unfold MIN_THRUST, MAX_THRUST in *.
    apply lever_term_bound; lra. }
  expand_residuals.
  repeat split; apply Qabs_Qle_condition;
    match goal with
    | |- _ <= ?n / ?I - ?c + ?c <= _ =>
        assert (E : n / I - c + c == n * / I) by (unfold Qdiv; ring);
        rewrite E; clear E
    end;
    unfold Qdiv;
    match goal with
    | |- _ <= _ * / ?I <= _ =>
        assert (HI : 0 <= / I) by (vm_compute; discriminate)
    end.
  all: bound_lever_terms B u; scale_by_inverse.
Qed.

Lemma angular_acceleration_is_bounded_witness :
  within_thrust_limits saturated_surge /\
  let reach (r : Role) (c : vector -> Q) :=
    Qsum (map (fun p => Qabs (c (position bench_globals p))) (thrusters_of r)) in
  Qabs (residual_no 3 bench_globals saturated_surge + cmdRoll bench_globals)
    <= 18 * (reach Heave y + reach Sway z) / Ix /\
  Qabs (residual_no 4 bench_globals saturated_surge + cmdPitch bench_globals)
    <= 18 * (reach Surge z + reach Heave x) / Iy /\
  Qabs (residual_no 5 bench_globals saturated_surge + cmdYaw bench_globals)
    <= 18 * (reach Surge y + reach Sway x) / Iz.
Proof.
  split; [exact saturated_surge_within_limits|].
  apply (angular_acceleration_is_bounded bench_globals saturated_surge).
  intros p; destruct p; cbn; unfold MIN_THRUST, MAX_THRUST; split; lra.
Defined.

Lemma feasible_iff_within_limits (g : Globals) (u : Thrust) :
  feasible (program_of g build_problem) u <-> within_thrust_limits u.
Proof.
  unfold feasible, within_thrust_limits, within. cbn [program_of lower upper].
  split; intros K p; specialize (K p);
    destruct (build_problem_bounds p) as [L U]; rewrite L, U in *; exact K.
Qed.

(** X12.  The thrust limits are symmetric and the equations are odd, so
    optimal allocations mirror: if [u] is a least-squares-optimal feasible
    point for the command [a], then [-u] is one for the command [-a], on the
    same position table. *)
Theorem optimal_allocations_mirror :
  forall (a : geometry_msgs.Accel) (g : Globals) (u : Thrust),
    least_squares_optimal (program_of (set_targets a g) build_problem) u ->
    least_squares_optimal (program_of (set_targets (neg_accel a) g) build_problem)
      (neg_thrust u).
Proof.
  intros a g u [F Opt].
  assert (N : forall v, within_thrust_limits v -> within_thrust_limits (neg_thrust v)).
  { intros v W p. destruct (W p) as [L U]. unfold neg_thrust.
    rewrite deref_store. unfold MIN_THRUST, MAX_THRUST in *. split; lra. }
  split.
  - apply feasible_iff_within_limits, N.
    apply (feasible_iff_within_limits (set_targets a g)), F.
  - intros u' F'.
    assert (F2 : feasible (program_of (set_targets a g) build_problem) (neg_thrust u'))
      by (apply feasible_iff_within_limits, N;
          apply (feasible_iff_within_limits (set_targets (neg_accel a) g)), F').
    specialize (Opt _ F2).
    assert (E1 : cost (program_of (set_targets (neg_accel a) g) build_problem)
                   (neg_thrust u)
                 == cost (program_of (set_targets a g) build_problem) u)
      by (expand_residuals; unfold Qdiv; ring).
    assert (E2 : cost (program_of (set_targets (neg_accel a) g) build_problem) u'
                 == cost (program_of (set_targets a g) build_problem) (neg_thrust u'))
      by (expand_residuals; unfold Qdiv; ring).
    rewrite E1, E2. exact Opt.
Qed.

Lemma optimal_allocations_mirror_witness :
  least_squares_optimal
    (program_of (set_targets (accel 0 0 0 1 0 0) bench_globals) build_problem)
    roll_by_heave /\
  least_squares_optimal
    (program_of (set_targets (neg_accel (accel 0 0 0 1 0 0)) bench_globals)
       build_problem)
    (neg_thrust roll_by_heave).
Proof.
  split; [exact (proj1 pure_roll_optimum_not_unique)|].
  apply (optimal_allocations_mirror (accel 0 0 0 1 0 0) bench_globals roll_by_heave).
  exact (proj1 pure_roll_optimum_not_unique).
Defined.

(** X13.  On a table whose surge entries are balanced, a pure surge command
    within reach (at most 72 / MASS in magnitude) can be met exactly: the
    equal split MASS * c / 4 on the four surge thrusters, everything else at
    rest, respects the limits and makes all six residuals vanish, so it is a
    least-squares-optimal feasible point; its surge forces add up to
    MASS * c. *)
Theorem balanced_surge_command_is_met_exactly :
  forall (g : Globals) (c : Q),
    surge_balanced g ->
    pure_surge_targets c g ->
    - (72 / MASS) <= c -> c <= 72 / MASS ->
    within_thrust_limits (equal_split c) /\
    Forall (fun r => r == 0)
      (residuals_at (program_of g build_problem) (equal_split c)) /\
    least_squares_optimal (program_of g build_problem) (equal_split c) /\
    force_sum (equal_split c) Surge == MASS * c.
Proof.
  intros g c [By Bz] (C1 & C2 & C3 & C4 & C5 & C6) Lc Uc.
  cbn [thrusters_of all_thrusters filter role Role_eqb map Qsum fold_right
       position] in By, Bz.
  assert (W : within_thrust_limits (equal_split c)).
  { unfold Qdiv, MASS in Lc, Uc.
    assert (Hi : / 48.8428 == 10000 # 488428) by reflexivity.
    rewrite Hi in Lc, Uc.
    intros p; destruct p; cbn [deref equal_split surge_stbd_hi surge_port_hi
      surge_port_lo surge_stbd_lo sway_fwd sway_aft heave_port_aft
      heave_stbd_aft heave_stbd_fwd heave_port_fwd];
      unfold MIN_THRUST, MAX_THRUST, MASS, Qdiv;
      assert (H4 : / 4 == 1 # 4) by reflexivity; rewrite ?H4; split; lra. }
  assert (Z : Forall (fun r => r == 0)
                (residuals_at (program_of g build_problem) (equal_split c))).
  { expand_residuals. unfold equal_split.
    cbn [surge_stbd_hi surge_port_hi surge_port_lo surge_stbd_lo
         sway_fwd sway_aft heave_port_aft heave_stbd_aft heave_stbd_fwd
         heave_port_fwd].
    set (zs := z (pos_surge_stbd_hi g) + (z (pos_surge_port_hi g)
               + (z (pos_surge_port_lo g) + (z (pos_surge_stbd_lo g) + 0))))
      in Bz.
    set (ys := y (pos_surge_stbd_hi g) + (y (pos_surge_port_hi g)
               + (y (pos_surge_port_lo g) + (y (pos_surge_stbd_lo g) + 0))))
      in By.
    repeat constructor.
    - rewrite C1. unfold MASS. field.
    - rewrite C2. unfold Qdiv; ring.
    - rewrite C3. unfold Qdiv; ring.
    - rewrite C4. unfold Qdiv; ring.
    - rewrite C5. match goal with |- ?n / Iy - 0 == 0 =>
        assert (E : n == MASS * c / 4 * zs) by (unfold zs, Qdiv; ring);
        rewrite E, Bz; unfold Qdiv; ring end.
    - rewrite C6. match goal with |- ?n / Iz - 0 == 0 =>
        assert (E : n == MASS * c / 4 * ys) by (unfold ys, Qdiv; ring);
        rewrite E, By; unfold Qdiv; ring end. }
  split; [exact W|]. split; [exact Z|].
  split; [apply zero_residuals_optimal;
          [apply feasible_iff_within_limits, W | exact Z]|].
  unfold force_sum.
  cbn [thrusters_of all_thrusters filter role Role_eqb map Qsum fold_right
       deref equal_split surge_stbd_hi surge_port_hi surge_port_lo surge_stbd_lo].
  field.
Qed.

Lemma bench_surge_balanced (a : geometry_msgs.Accel) :
  surge_balanced (set_targets a bench_globals).
Proof. split; reflexivity. Qed.

Lemma balanced_surge_command_is_met_exactly_witness :
  surge_balanced (set_targets (accel 1 0 0 0 0 0) bench_globals) /\
  pure_surge_targets 1 (set_targets (accel 1 0 0 0 0 0) bench_globals) /\
  - (72 / MASS) <= 1 /\ 1 <= 72 / MASS /\
  within_thrust_limits (equal_split 1) /\
  Forall (fun r => r == 0)
    (residuals_at (program_of (set_targets (accel 1 0 0 0 0 0) bench_globals)
                     build_problem) (equal_split 1)) /\
  least_squares_optimal
    (program_of (set_targets (accel 1 0 0 0 0 0) bench_globals) build_problem)
    (equal_split 1) /\
  force_sum (equal_split 1) Surge == MASS * 1.
Proof.
  split; [apply bench_surge_balanced|].
  split; [repeat split; reflexivity|].
  split; [vm_compute; discriminate|].
  split; [vm_compute; discriminate|].
  apply (balanced_surge_command_is_met_exactly
           (set_targets (accel 1 0 0 0 0 0) bench_globals) 1).
  - split; reflexivity.
  - repeat split; reflexivity.
  - vm_compute; discriminate.
  - vm_compute; discriminate.
Defined.

(** The cost of the saturated surge allocation under pure surge targets on a
    balanced table: only the surge residual is left. *)
Lemma saturated_surge_cost (g : Globals) (c : Q) :
  surge_balanced g ->
  pure_surge_targets c g ->
  cost (program_of g build_problem) saturated_surge
  == (72 / MASS - c) * (72 / MASS - c).
Proof.
  intros [By Bz] (C1 & C2 & C3 & C4 & C5 & C6).
  cbn [thrusters_of all_thrusters filter role Role_eqb map Qsum fold_right
       position] in By, Bz.
  expand_residuals. unfold saturated_surge, MAX_THRUST.
  cbn [surge_stbd_hi surge_port_hi surge_port_lo surge_stbd_lo
       sway_fwd sway_aft heave_port_aft heave_stbd_aft heave_stbd_fwd
       heave_port_fwd].
  rewrite C1, C2, C3, C4, C5, C6.
  match goal with
  | |- _ + (_ + (_ + (_ + ((?n5 / Iy - 0) * _ + ((?n6 / Iz - 0) * _ + 0)))))
       == _ =>
      assert (E5 : n5 == 0) by lra;
      assert (E6 : n6 == 0) by lra;
      rewrite E5, E6
  end.
  unfold Qdiv. ring.
Qed.

(** The cost is never below the square of the surge residual. *)
Lemma cost_at_least_surge_square (g : Globals) (u : Thrust) :
  residual_no 0 g u * residual_no 0 g u <= cost (program_of g build_problem) u.
Proof.
  unfold cost, residual_no.
  remember (residuals_at (program_of g build_problem) u) as rs eqn:E.
  assert (L : exists r rest, rs = r :: rest)
    by (subst rs; eexists; eexists; reflexivity).
  destruct L as (r & rest & ->). cbn [nth map Qsum fold_right].
  pose proof (Qsum_squares_nonneg rest) as T. unfold Qsum in T. lra.
Qed.

Lemma surge_residual_upper (g : Globals) (u : Thrust) :
  within_thrust_limits u ->
  residual_no 0 g u + cmdSurge g
  == (surge_stbd_hi u + surge_port_hi u + surge_port_lo u + surge_stbd_lo u) / MASS /\
  residual_no 0 g u + cmdSurge g <= 72 / MASS.
Proof.
  intros W.
  pose proof (W SurgeStbdHi) as [_ U1]. pose proof (W SurgePortHi) as [_ U2].
  pose proof (W SurgePortLo) as [_ U3]. pose proof (W SurgeStbdLo) as [_ U4].
  cbn [deref] in *. unfold MAX_THRUST in *.
  expand_residuals. unfold Qdiv, MASS.
  set (i := / 48.8428).
  assert (Hi : i == 10000 # 488428) by reflexivity.
  rewrite Hi. split; [ring | lra].
Qed.

Lemma saturated_surge_optimal (g : Globals) (c : Q) :
  72 / MASS <= c ->
  surge_balanced g ->
  pure_surge_targets c g ->
  least_squares_optimal (program_of g build_problem) saturated_surge.
Proof.
  intros Hc B C. split.
  - apply feasible_iff_within_limits, saturated_surge_within_limits.
  - intros u' F'. apply feasible_iff_within_limits in F'.
    rewrite (saturated_surge_cost g c B C).
    eapply Qle_trans; [|apply cost_at_least_surge_square].
    destruct (surge_residual_upper g u' F') as [_ U].
    destruct C as (C1 & _). rewrite C1 in U.
    set (r := residual_no 0 g u') in *. nra.
Qed.

(** X14.  On a table whose surge entries are balanced, a pure surge command
    at or beyond reach (c >= 72 / MASS) saturates the surge thrusters: every
    least-squares-optimal feasible point has all four surge forces at 18 N,
    and its surge residual is the shortfall 72 / MASS - c. *)
Theorem surge_saturates_beyond_reach :
  forall (g : Globals) (c : Q) (u : Thrust),
    72 / MASS <= c ->
    surge_balanced g ->
    pure_surge_targets c g ->
    least_squares_optimal (program_of g build_problem) u ->
    (forall p, role p = Surge -> deref u p == 18) /\
    residual_no 0 g u == 72 / MASS - c.
Proof.
  intros g c u Hc B C [F Opt].
  apply feasible_iff_within_limits in F.
  assert (Fs : feasible (program_of g build_problem) saturated_surge)
    by apply feasible_iff_within_limits, saturated_surge_within_limits.
  specialize (Opt _ Fs). rewrite (saturated_surge_cost g c B C) in Opt.
  pose proof (cost_at_least_surge_square g u) as Sq.
  destruct (surge_residual_upper g u F) as [Er U].
  destruct C as (C1 & _). rewrite C1 in U, Er.
  set (r := residual_no 0 g u) in *.
  set (A := 72 / MASS - c) in *.
  assert (HA : A <= 0) by (unfold A; lra).
  assert (Hr : r <= A) by (unfold A; lra).
  assert (E : r == A) by nra.
  split; [|exact E].
  assert (S72 : surge_stbd_hi u + surge_port_hi u + surge_port_lo u
                + surge_stbd_lo u == 72).
  { assert (Q1 : (surge_stbd_hi u + surge_port_hi u + surge_port_lo u
                  + surge_stbd_lo u) / MASS == 72 / MASS)
      by (rewrite <- Er, E; unfold A; ring).
    unfold Qdiv, MASS in Q1.
    assert (Hi : / 48.8428 == 10000 # 488428) by reflexivity.
    rewrite Hi in Q1. lra. }
  pose proof (F SurgeStbdHi) as [_ U1]. pose proof (F SurgePortHi) as [_ U2].
  pose proof (F SurgePortLo) as [_ U3]. pose proof (F SurgeStbdLo) as [_ U4].
  cbn [deref] in *. unfold MAX_THRUST in *.
  intros p Hp; destruct p; try discriminate Hp; cbn [deref]; lra.
Qed.

Lemma surge_saturates_beyond_reach_witness :
  72 / MASS <= 3 /\
  surge_balanced (set_targets (accel 3 0 0 0 0 0) bench_globals) /\
  pure_surge_targets 3 (set_targets (accel 3 0 0 0 0 0) bench_globals) /\
  least_squares_optimal
    (program_of (set_targets (accel 3 0 0 0 0 0) bench_globals) build_problem)
    saturated_surge /\
  (forall p, role p = Surge -> deref saturated_surge p == 18) /\
  residual_no 0 (set_targets (accel 3 0 0 0 0 0) bench_globals) saturated_surge
  == 72 / MASS - 3.
Proof.
  assert (H1 : 72 / MASS <= 3) by (vm_compute; discriminate).
  assert (H2 : surge_balanced (set_targets (accel 3 0 0 0 0 0) bench_globals))
    by (split; reflexivity).
  assert (H3 : pure_surge_targets 3 (set_targets (accel 3 0 0 0 0 0) bench_globals))
    by (repeat split; reflexivity).
  pose proof (saturated_surge_optimal _ 3 H1 H2 H3) as H4.
  split; [exact H1|]. split; [exact H2|]. split; [exact H3|].
  split; [exact H4|].
  exact (surge_saturates_beyond_reach
           (set_targets (accel 3 0 0 0 0 0) bench_globals) 3 saturated_surge
           H1 H2 H3 H4).
Defined.

(** X15.  The equations are blind to two force patterns: for every position
    table, adding any multiple of [surge_null] (a pattern on the four surge
    thrusters) or of [heave_null] (a pattern on the four heave thrusters) to
    the unknowns changes none of the six residuals, hence not the cost. *)
Theorem residuals_blind_to_null_patterns :
  forall (g : Globals) (u : Thrust) (t : Q),
    Forall2 Qeq
      (residuals_at (program_of g build_problem)
         (add_thrust u (scale_thrust t (surge_null g))))
      (residuals_at (program_of g build_problem) u) /\
    Forall2 Qeq
      (residuals_at (program_of g build_problem)
         (add_thrust u (scale_thrust t (heave_null g))))
      (residuals_at (program_of g build_problem) u) /\
    cost (program_of g build_problem) (add_thrust u (scale_thrust t (surge_null g)))
    == cost (program_of g build_problem) u /\
    cost (program_of g build_problem) (add_thrust u (scale_thrust t (heave_null g)))
    == cost (program_of g build_problem) u.
Proof.
  intros g u t.
  repeat split; expand_residuals; unfold surge_null, heave_null, minor;
    cbn [surge_stbd_hi surge_port_hi surge_port_lo surge_stbd_lo
         sway_fwd sway_aft heave_port_aft heave_stbd_aft heave_stbd_fwd
         heave_port_fwd];
    try (repeat constructor); unfold Qdiv; ring.
Qed.

(** On the bench neither pattern is the zero pattern. *)
Example bench_null_patterns_are_not_zero :
  ~ surge_stbd_hi (surge_null bench_globals) == 0 /\
  ~ heave_port_aft (heave_null bench_globals) == 0.
Proof. split; vm_compute; discriminate. Qed.

(** X16.  A cycle starts cold: what it publishes for a command depends on
    the state only through the problem, the options and the position table.
    Two states that agree on those publish the same message for the same
    command at the same time, whatever their targets, their ten unknowns,
    their stored summary and their earlier output are. *)
Theorem cycle_output_ignores_history :
  forall (Solve : SolveFn) (s1 s2 : State) (a : geometry_msgs.Accel) (now : ros_Time),
    problem s1 = problem s2 ->
    options s1 = options s2 ->
    (forall p, position (globals s1) p = position (globals s2) p) ->
    thrust (callback Solve a now s1) = thrust (callback Solve a now s2) /\
    unknowns (callback Solve a now s1) = unknowns (callback Solve a now s2) /\
    globals (callback Solve a now s1) = globals (callback Solve a now s2).
Proof.
  intros Solve s1 s2 a now Pb Op Pos.
  assert (G : set_targets a (globals s1) = set_targets a (globals s2)).
  { unfold set_targets.
    pose proof (Pos SurgeStbdHi) as E1. pose proof (Pos SurgePortHi) as E2.
    pose proof (Pos SurgePortLo) as E3. pose proof (Pos SurgeStbdLo) as E4.
    pose proof (Pos SwayFwd) as E5. pose proof (Pos SwayAft) as E6.
    pose proof (Pos HeavePortAft) as E7. pose proof (Pos HeaveStbdAft) as E8.
    pose proof (Pos HeaveStbdFwd) as E9. pose proof (Pos HeavePortFwd) as E10.
    cbn [position] in *.
    rewrite E1, E2, E3, E4, E5, E6, E7, E8, E9, E10. reflexivity. }
  assert (S : solved Solve s1 a = solved Solve s2 a)
    by (unfold solved; rewrite G, Pb, Op; reflexivity).
  split; [rewrite !thrust_callback; unfold message; cbn [fst snd]; now rewrite S|].
  split; [|exact G].
  change (unknowns (callback Solve a now s1)) with (solved Solve s1 a).
  change (unknowns (callback Solve a now s2)) with (solved Solve s2 a).
  exact S.
Qed.

Lemma cycle_output_ignores_history_witness :
  exists s,
    bench_start = Some s /\
    let s' := loop descent_Solve [(accel 0 2 0 0 0 1, 4%N)] s in
    problem s' = problem s /\
    options s' = options s /\
    (forall p, position (globals s') p = position (globals s) p) /\
    thrust (callback descent_Solve (accel 1 0 0 0 0 0) 9%N s')
    = thrust (callback descent_Solve (accel 1 0 0 0 0 0) 9%N s) /\
    unknowns (callback descent_Solve (accel 1 0 0 0 0 0) 9%N s')
    = unknowns (callback descent_Solve (accel 1 0 0 0 0 0) 9%N s) /\
    globals (callback descent_Solve (accel 1 0 0 0 0 0) 9%N s')
    = globals (callback descent_Solve (accel 1 0 0 0 0 0) 9%N s).
Proof.
  eexists. split; [reflexivity|]. intros s'.
  assert (H1 : problem s' = problem _) by apply loop_problem.
  assert (H2 : options s' = options _) by apply loop_options.
  assert (H3 : forall p, position (globals s') p = position (globals _) p)
    by (intros p; apply position_after_loop).
  split; [exact H1|]. split; [exact H2|]. split; [exact H3|].
  exact (cycle_output_ignores_history descent_Solve s' _
           (accel 1 0 0 0 0 0) 9%N H1 H2 H3).
Defined.
